(** * ct_secretsd: secret storage back ends and proxy process controller

    A shallow embedding of [ct_secretsd/storage.py] and
    [ct_secretsd/proxy_controller.py], of the provider adapters of
    [ct_secretsd/providers.py] and of the request handlers of
    [ct_secretsd/app.py] that call them.  Python methods become functions
    in a state-and-exception monad; the operating system (process table,
    clock, file system, OS keyring) and the network are explicit parts of
    the state. *)

From Stdlib Require Import ZArith NArith Lia Strings.Ascii Strings.Byte.
From stdpp Require Import gmap strings list pretty.

(** ** Python exceptions and the state-and-exception monad *)

Module Py.

(** The exception classes that the two modules raise or catch.  Every one
    of them derives from Python's [Exception]. *)
Inductive exn : Type :=
| RuntimeError (msg : string)
| OSError                      (* incl. PermissionError, IsADirectoryError *)
| FileNotFoundError
| TimeoutExpired
| KeyringError                 (* keyring.errors.KeyringError and subclasses *)
| InvalidToken
| JSONDecodeError
| UnicodeDecodeError
| ValueError
| AttributeError
| StorageError (cause : exn).

Inductive outcome (A : Type) : Type :=
| Ret (a : A)
| Raise (e : exn).
Arguments Ret {A} a.
Arguments Raise {A} e.

(** A computation reads and writes a state [S] and either returns or
    raises. *)
Definition M (S A : Type) : Type := S -> outcome A * S.

Definition ret {S A} (a : A) : M S A := fun s => (Ret a, s).

Definition bind {S A B} (m : M S A) (k : A -> M S B) : M S B :=
  fun s => match m s with
           | (Ret a, s') => k a s'
           | (Raise e, s') => (Raise e, s')
           end.

Definition raise {S A} (e : exn) : M S A := fun s => (Raise e, s).

(** [try: m  except Exception as e: h e] *)
Definition try_except {S A} (m : M S A) (h : exn -> M S A) : M S A :=
  fun s => match m s with
           | (Ret a, s') => (Ret a, s')
           | (Raise e, s') => h e s'
           end.

(** [try: m  finally: f] where the [finally] block ends in [return]: the
    value returned by [f] replaces whatever [m] did, a pending exception
    included. *)
Definition try_finally_return {S A B} (m : M S A) (f : M S B) : M S B :=
  fun s => f (snd (m s)).

Definition gets {S A} (f : S -> A) : M S A := fun s => (Ret (f s), s).
Definition modify {S} (f : S -> S) : M S unit := fun s => (Ret tt, f s).

#[global] Instance M_ret {S} : MRet (M S) := @ret S.
#[global] Instance M_bind {S} : MBind (M S) := fun A B k m => bind m k.


(** *** Frame rules

    [frames R m]: whatever [m] does, from every state it ends in a state
    related to the start by [R].  For a preorder [R] the property is
    closed under the control structure of the monad. *)
Definition frames {S A} (R : relation S) (m : M S A) : Prop :=
  forall s, R s (snd (m s)).


End Py.

(** ** The proxy process controller ([proxy_controller.py]) *)

Module Proxy.
Import Py.

(** Times are milliseconds on the daemon's clock ([time.time()]). *)
Record ProxyProcessInfo : Type := {
  pid : Z;
  port : Z;
  started_at : N
}.

#[global] Instance ProxyProcessInfo_eq_dec : EqDecision ProxyProcessInfo.
Proof. solve_decision. Defined.

(** *** The operating system as the controller sees it

    What a spawned [node index.js] does is not decided by the daemon, so
    each child comes with a script that fixes its behaviour: whether and
    when it starts to listen, whether it exits by itself, and how it reacts
    to SIGTERM and SIGKILL.  Delays are relative to the event. *)
Record child_script : Type := {
  cs_listen : option (Z * N);       (* port it binds, delay after spawn *)
  cs_crash_after : option N;        (* exits by itself after this delay *)
  cs_term_raises : bool;            (* [terminate()] raises *)
  cs_term_exit_after : option N;    (* delay from SIGTERM to exit; [None]: ignored *)
  cs_kill_raises : bool;            (* [kill()] raises *)
  cs_kill_exit_after : option N     (* delay from SIGKILL until the exit is observable *)
}.

Record process : Type := {
  p_env : gmap string string;       (* environment the child was given *)
  p_listen : option (Z * N);        (* port, and time from which it accepts *)
  p_exit_at : option N;             (* time of its exit, once that is settled *)
  p_script : child_script
}.

Record world : Type := {
  now : N;                          (* time.time() *)
  environ : gmap string string;     (* os.environ *)
  procs : gmap Z process;           (* children spawned so far, by pid *)
  next_pid : Z;
  launches : list child_script      (* behaviour of the children still to come;
                                       exhausted: [Popen] raises *)
}.

(** [subprocess.Popen] objects are identified with the pid of the child. *)
Record ProxyController : Type := {
  _proc : option Z;
  _info : option ProxyProcessInfo
}.

Record state : Type := {
  self : ProxyController;
  os : world
}.

(** [ProxyController.__init__] *)
Definition init : ProxyController := {| _proc := None; _info := None |}.

Definition set_proc (h : option Z) (st : state) : state :=
  {| self := {| _proc := h; _info := _info (self st) |}; os := os st |}.
Definition set_info (i : option ProxyProcessInfo) (st : state) : state :=
  {| self := {| _proc := _proc (self st); _info := i |}; os := os st |}.
Definition set_os (w : world) (st : state) : state :=
  {| self := self st; os := w |}.
Definition set_now (t : N) (w : world) : world :=
  {| now := t; environ := environ w; procs := procs w;
     next_pid := next_pid w; launches := launches w |}.
Definition set_procs (ps : gmap Z process) (w : world) : world :=
  {| now := now w; environ := environ w; procs := ps;
     next_pid := next_pid w; launches := launches w |}.

(** **** Processes *)

Definition exited_at (t : N) (p : process) : bool :=
  match p_exit_at p with
  | Some te => (te <=? t)%N
  | None => false
  end.

(** Record that the process exits at [t] unless it is gone earlier. *)
Definition schedule_exit (t : N) (p : process) : process :=
  {| p_env := p_env p; p_listen := p_listen p;
     p_exit_at := Some (match p_exit_at p with
                        | Some te => N.min te t
                        | None => t
                        end);
     p_script := p_script p |}.

(** Whether the child behind handle [h] has exited by now.  A handle that
    names no child counts as exited. *)
Definition has_exited (h : Z) (w : world) : bool :=
  match procs w !! h with
  | Some p => exited_at (now w) p
  | None => true
  end.

(** [Popen.poll()]: [true] stands for a return code, [false] for [None]. *)
Definition poll (h : Z) : M state bool :=
  gets (fun st => has_exited h (os st)).

(** [Popen.send_signal]: nothing is sent to a child known to have exited. *)
Definition send_signal (raises : child_script -> bool)
    (exit_after : child_script -> option N) (h : Z) : M state unit :=
  fun st =>
    let w := os st in
    match procs w !! h with
    | None => (Ret tt, st)
    | Some p =>
      if exited_at (now w) p then (Ret tt, st)
      else if raises (p_script p) then (Raise OSError, st)
      else match exit_after (p_script p) with
           | None => (Ret tt, st)
           | Some d =>
             (Ret tt, set_os (set_procs (<[h := schedule_exit (now w + d) p]> (procs w)) w) st)
           end
    end.

(** [Popen.terminate()] and [Popen.kill()] *)
Definition terminate : Z -> M state unit :=
  send_signal cs_term_raises cs_term_exit_after.
Definition kill : Z -> M state unit :=
  send_signal cs_kill_raises cs_kill_exit_after.

(** [Popen.wait(timeout)]: blocks until the child has exited, or raises
    [TimeoutExpired] once [timeout] has elapsed. *)
Definition wait (h : Z) (timeout : N) : M state unit :=
  fun st =>
    let w := os st in
    match procs w !! h with
    | None => (Ret tt, st)
    | Some p =>
      match p_exit_at p with
      | Some te =>
        if (te <=? now w + timeout)%N
        then (Ret tt, set_os (set_now (N.max (now w) te) w) st)
        else (Raise TimeoutExpired, set_os (set_now (now w + timeout) w) st)
      | None => (Raise TimeoutExpired, set_os (set_now (now w + timeout) w) st)
      end
    end.

(** [subprocess.Popen(["node", "index.js"], env={**os.environ, **env}, ...)] *)
Definition Popen (env : gmap string string) : M state Z :=
  fun st =>
    let w := os st in
    match launches w with
    | [] => (Raise OSError, st)
    | sc :: rest =>
      let h := next_pid w in
      let p := {| p_env := env ∪ environ w;
                  p_listen := (fun '(pt, d) => (pt, (now w + d)%N)) <$> cs_listen sc;
                  p_exit_at := (fun d => (now w + d)%N) <$> cs_crash_after sc;
                  p_script := sc |} in
      (Ret h, set_os {| now := now w; environ := environ w;
                        procs := <[h := p]> (procs w);
                        next_pid := h + 1; launches := rest |} st)
    end.

(** **** Clock and sockets

    Only [time.sleep] and [Popen.wait] let time pass; spawning, signalling
    and a refused connection take none. *)

Definition time : M state N := gets (fun st => now (os st)).

Definition sleep (ms : N) : M state unit :=
  modify (fun st => set_os (set_now (now (os st) + ms) (os st)) st).

(** A child accepts connections on [pt] at time [t] when it is alive and
    has been listening there since before [t]. *)
Definition accepts (pt : Z) (t : N) (p : process) : bool :=
  negb (exited_at t p) &&
  match p_listen p with
  | Some (pt', since) => bool_decide (pt' = pt) && (since <=? t)%N
  | None => false
  end.

(** [socket.connect(("127.0.0.1", pt))]: [true] when the connection is
    accepted, [false] when it raises. *)
Definition connect (pt : Z) : M state bool :=
  gets (fun st =>
    existsb (fun kp => accepts pt (now (os st)) (snd kp)) (map_to_list (procs (os st)))).

(** *** The controller *)

(** [ProxyController.is_running] *)
Definition is_running (st : state) : bool :=
  match _proc (self st) with
  | Some h => negb (has_exited h (os st))
  | None => false
  end.

(** [ProxyController.info] *)
Definition info (st : state) : option ProxyProcessInfo :=
  if is_running st then _info (self st) else None.

(** The [while time.time() < deadline] loop of [_wait_for_port].  Each
    failed attempt is followed by [time.sleep(0.1)]; [fuel] bounds the
    number of iterations. *)
Fixpoint _wait_for_port_loop (fuel : nat) (pt : Z) (deadline : N) : M state bool :=
  match fuel with
  | O => mret false
  | S fuel' =>
    t ← time;
    if (t <? deadline)%N then
      ok ← connect pt;
      if ok : bool then mret true
      else sleep 100;; _wait_for_port_loop fuel' pt deadline
    else mret false
  end.

(** [ProxyController._wait_for_port]: one iteration per 100 ms of the
    timeout is all the loop can make. *)
Definition _wait_for_port (pt : Z) (timeout : N) : M state bool :=
  t ← time;
  _wait_for_port_loop (S (N.to_nat (timeout / 100))) pt (t + timeout)%N.

Definition start_failed : exn :=
  RuntimeError "Proxy failed to start or port did not open in time".

(** [ProxyController.start] *)
Definition start (env : gmap string string) (pt : Z) : M state (option ProxyProcessInfo) :=
  st ← gets (fun st : state => st);
  if is_running st : bool then gets (fun st => _info (self st))
  else
    h ← Popen env;
    modify (set_proc (Some h));;
    t0 ← time;
    ok ← _wait_for_port pt 15000;
    if negb ok : bool then
      try_except (terminate h) (fun _ => mret tt);;
      raise start_failed
    else
      let i := {| pid := h; port := pt; started_at := t0 |} in
      modify (set_info (Some i));;
      gets (fun st => _info (self st)).

(** The [try]/[except] part of [stop]: [terminate()] and a wait of 5 s,
    [kill()] if either raises, errors of the kill swallowed. *)
Definition stop_signals (h : Z) : M state unit :=
  try_except (terminate h;; wait h 5000)
             (fun _ => try_except (kill h) (fun _ => mret tt)).

(** [ProxyController.stop] *)
Definition stop : M state bool :=
  p ← gets (fun st => _proc (self st));
  match p with
  | None => mret true
  | Some h =>
    try_finally_return
      (stop_signals h)
      (stopped ← poll h;
       modify (set_proc None);;
       modify (set_info None);;
       mret stopped)
  end.

(** *** Vocabulary of the specification *)

(** The state a fresh daemon starts from: a new controller and no child. *)
Definition boot (t : N) (vars : gmap string string) (first_pid : Z)
    (scripts : list child_script) : state :=
  {| self := init;
     os := {| now := t; environ := vars; procs := ∅;
              next_pid := first_pid; launches := scripts |} |}.

(** The state right after [self._proc = subprocess.Popen(...)] in [start]. *)
Definition spawned (env : gmap string string) (st : state) : state :=
  set_proc (Some (next_pid (os st))) (snd (Popen env st)).

(** Sample children.  [obedient]: listens on port 3000 after 700 ms and
    exits 20 ms after SIGTERM.  [deaf]: never listens and ignores SIGTERM.
    [mute]: never listens, exits 20 ms after SIGTERM.  [lingering]:
    listens, ignores SIGTERM, and its exit after SIGKILL shows only 50 ms
    later.  [untouchable]: listens, and signalling it raises. *)
Definition obedient : child_script :=
  {| cs_listen := Some (3000%Z, 700%N); cs_crash_after := None;
     cs_term_raises := false; cs_term_exit_after := Some 20%N;
     cs_kill_raises := false; cs_kill_exit_after := Some 0%N |}.
Definition deaf : child_script :=
  {| cs_listen := None; cs_crash_after := None;
     cs_term_raises := false; cs_term_exit_after := None;
     cs_kill_raises := false; cs_kill_exit_after := Some 0%N |}.
Definition mute : child_script :=
  {| cs_listen := None; cs_crash_after := None;
     cs_term_raises := false; cs_term_exit_after := Some 20%N;
     cs_kill_raises := false; cs_kill_exit_after := Some 0%N |}.
Definition lingering : child_script :=
  {| cs_listen := Some (3000%Z, 700%N); cs_crash_after := None;
     cs_term_raises := false; cs_term_exit_after := None;
     cs_kill_raises := false; cs_kill_exit_after := Some 50%N |}.
Definition untouchable : child_script :=
  {| cs_listen := Some (3000%Z, 700%N); cs_crash_after := None;
     cs_term_raises := true; cs_term_exit_after := None;
     cs_kill_raises := true; cs_kill_exit_after := None |}.

(** Idle: the controller retains neither handle nor info. *)
Definition idle (st : state) : Prop := self st = init.

(** Reachable controllers never keep an info without a handle. *)
Definition consistent (c : ProxyController) : Prop :=
  _proc c = None -> _info c = None.

(** Exits are final: a child seen exited in [w] is still exited in [w']. *)
Definition ages (w w' : world) : Prop :=
  forall h, has_exited h w = true -> has_exited h w' = true.

(** The controller object is untouched and no child comes back to life. *)
Definition settles (st st' : state) : Prop :=
  self st' = self st /\ ages (os st) (os st').

(** The requests the daemon serves one after the other, and time passing
    between them.  Next to the state, a run records the children that a
    [stop] let go of without having seen them exit. *)
Inductive call : Type :=
| CallStart (env : gmap string string) (pt : Z)
| CallStop
| Elapse (ms : N).

Definition run_call (c : call) (x : state * list Z) : state * list Z :=
  let '(st, lost) := x in
  match c with
  | CallStart env pt => (snd (start env pt st), lost)
  | CallStop =>
    (snd (stop st),
     match fst (stop st), _proc (self st) with
     | Ret false, Some h => h :: lost
     | _, _ => lost
     end)
  | Elapse ms => (snd (sleep ms st), lost)
  end.

Fixpoint run (cs : list call) (x : state * list Z) : state * list Z :=
  match cs with
  | [] => x
  | c :: cs' => run cs' (run_call c x)
  end.

(** The child that [Popen] creates in the world [w] from the script [sc]. *)
Definition new_child (env : gmap string string) (sc : child_script) (w : world)
    : process :=
  {| p_env := env ∪ environ w;
     p_listen := (fun '(pt, d) => (pt, (now w + d)%N)) <$> cs_listen sc;
     p_exit_at := (fun d => (now w + d)%N) <$> cs_crash_after sc;
     p_script := sc |}.

(** Between [st] and [st'] the clock has not run backwards, and nothing
    has changed for the environment, for the children to come or for any
    child other than [h]. *)
Definition touches_only (h : Z) (st st' : state) : Prop :=
  (now (os st) <= now (os st'))%N /\
  environ (os st') = environ (os st) /\
  forall h', h' <> h -> procs (os st') !! h' = procs (os st) !! h'.

(** The state [st] with the clock at [t]. *)
Definition at_time (t : N) (st : state) : state :=
  set_os (set_now t (os st)) st.

(** Whether a connection to port [pt] would be accepted in [st]. *)
Definition accepted (pt : Z) (st : state) : bool :=
  match fst (connect pt st) with
  | Ret b => b
  | Raise _ => false
  end.

(** Every child that is alive is the one the controller holds, or one
    that an unconfirmed [stop] let go of. *)
Definition one_child (st : state) (lost : list Z) : Prop :=
  forall h, has_exited h (os st) = false -> _proc (self st) = Some h \/ h ∈ lost.

End Proxy.

(** ** Secret storage ([storage.py]) *)

Module Storage.
Import Py.

Abbreviation bytes := (list Byte.byte).

#[global] Instance byte_eq_decision : EqDecision Byte.byte := Byte.byte_eq_dec.

(** Python values as far as [json] produces them; [VNone] is [None]. *)
#[local] Unset Elimination Schemes.
Inductive value : Type :=
| VNone
| VBool (b : bool)
| VInt (n : Z)
| VStr (s : string)
| VList (l : list value)
| VDict (d : gmap string value).
#[local] Set Elimination Schemes.

(** [v is None] *)
Definition is_None (v : value) : bool :=
  match v with
  | VNone => true
  | _ => false
  end.

(** The dictionary [metadata] as a Python value. *)
Definition metadata_value (metadata : gmap string string) : value :=
  VDict (VStr <$> metadata).

(** The dictionary [{"api_key": api_key, "metadata": metadata or {}}]. *)
Definition record_value (api_key : string) (metadata : option (gmap string string))
    : value :=
  VDict (<["api_key" := VStr api_key]>
           (<["metadata" := metadata_value (default ∅ metadata)]> ∅)).

(** *** The libraries the module calls

    [cryptography.fernet] and [json] are not part of the daemon.  They
    enter as interfaces with the properties the daemon relies on. *)

(** [cryptography.fernet.Fernet].  [fernet_key_ok key] says that
    [Fernet(key)] accepts the key (it raises [ValueError] otherwise);
    [fernet_decrypt] answers [None] where the library raises
    [InvalidToken].  Key generation and encryption draw fresh entropy. *)
Class Fernet : Type := {
  fernet_key_ok : bytes -> bool;
  fernet_generate_key : N -> bytes;
  fernet_encrypt : bytes -> N -> bytes -> bytes;
  fernet_decrypt : bytes -> bytes -> option bytes;
  fernet_generate_key_ok : forall r, fernet_key_ok (fernet_generate_key r) = true;
  (* a key is the base64 text of 32 bytes *)
  fernet_key_length : forall k, fernet_key_ok k = true -> 44 <= length k;
  fernet_decrypt_encrypt : forall k r m,
    fernet_key_ok k = true -> fernet_decrypt k (fernet_encrypt k r m) = Some m
}.

(** [json.dumps], [json.loads], [str.encode] and [bytes.decode].  The
    daemon serializes two shapes of value, a record and a metadata
    dictionary; [json] reads both back as they were. *)
Class Codec : Type := {
  json_dumps : value -> string;
  json_loads : string -> option value;       (* [None]: JSONDecodeError *)
  str_encode : string -> bytes;
  bytes_decode : bytes -> option string;     (* [None]: UnicodeDecodeError *)
  json_loads_dumps_record : forall api_key metadata,
    json_loads (json_dumps (record_value api_key metadata)) =
    Some (record_value api_key metadata);
  json_loads_dumps_metadata : forall metadata,
    json_loads (json_dumps (metadata_value metadata)) = Some (metadata_value metadata);
  bytes_decode_encode : forall s, bytes_decode (str_encode s) = Some s
}.

(** *** The operating system as the storage sees it *)

Record file : Type := {
  f_data : bytes;
  f_mode : Z
}.

(** What the daemon is denied on a path: to create, write, remove or
    change it ([ReadOnly]), or to open it at all ([NoAccess]). *)
Inductive denial : Type := ReadOnly | NoAccess.

(** Files and directories by path, and the paths with restricted access. *)
Record filesys : Type := {
  fs_files : gmap string file;
  fs_dirs : gset string;
  fs_denied : gmap string denial
}.

Definition may_read (f : filesys) (p : string) : bool :=
  match fs_denied f !! p with
  | Some NoAccess => false
  | _ => true
  end.

Definition may_write (f : filesys) (p : string) : bool :=
  match fs_denied f !! p with
  | Some _ => false
  | None => true
  end.

(** The OS keyring behind the [keyring] package: entries by service and
    account, or no usable credential store at all. *)
Record keyring_backend : Type := {
  kr_available : bool;
  kr_entries : gmap (string * string) string
}.

Record KeyringStorage : Type := {
  service_name : string
}.

Record EncryptedFileStorage : Type := {
  storage_dir : string;
  key_file : string;
  _encryption_key : bytes
}.

(** The two implementations of the abstract class [SecretStorage]. *)
Inductive SecretStorage : Type :=
| Keyring (s : KeyringStorage)
| EncryptedFile (s : EncryptedFileStorage).

#[global] Instance KeyringStorage_eq_dec : EqDecision KeyringStorage.
Proof. solve_decision. Defined.
#[global] Instance EncryptedFileStorage_eq_dec : EqDecision EncryptedFileStorage.
Proof. solve_decision. Defined.
#[global] Instance SecretStorage_eq_dec : EqDecision SecretStorage.
Proof. solve_decision. Defined.

(** The process and its surroundings; [_storage_instance] is the module
    global of that name. *)
Record state : Type := {
  fs : filesys;
  keyring : keyring_backend;
  entropy : N;
  home : string;
  _storage_instance : option SecretStorage
}.

Definition set_fs (f : filesys) (st : state) : state :=
  {| fs := f; keyring := keyring st; entropy := entropy st; home := home st;
     _storage_instance := _storage_instance st |}.
Definition set_keyring (k : keyring_backend) (st : state) : state :=
  {| fs := fs st; keyring := k; entropy := entropy st; home := home st;
     _storage_instance := _storage_instance st |}.
Definition set_storage_instance (i : option SecretStorage) (st : state) : state :=
  {| fs := fs st; keyring := keyring st; entropy := entropy st; home := home st;
     _storage_instance := i |}.
Definition set_files (m : gmap string file) (f : filesys) : filesys :=
  {| fs_files := m; fs_dirs := fs_dirs f; fs_denied := fs_denied f |}.
Definition set_entries (m : gmap (string * string) string) (k : keyring_backend)
    : keyring_backend :=
  {| kr_available := kr_available k; kr_entries := m |}.

(** [os.urandom] and the clock that [Fernet] reads. *)
Definition draw : M state N :=
  fun st => (Ret (entropy st),
             {| fs := fs st; keyring := keyring st; entropy := N.succ (entropy st);
                home := home st; _storage_instance := _storage_instance st |}).

(** **** Files *)

(** [os.path.exists] and [Path.exists] *)
Definition path_exists (p : string) : M state bool :=
  gets (fun st => bool_decide (is_Some (fs_files (fs st) !! p)) ||
                  bool_decide (p ∈ fs_dirs (fs st))).

(** [with open(p, 'rb') as f: f.read()] *)
Definition read_file (p : string) : M state bytes :=
  fun st =>
    match fs_files (fs st) !! p with
    | None =>
      if bool_decide (p ∈ fs_dirs (fs st)) then (Raise OSError, st)
      else (Raise FileNotFoundError, st)
    | Some f =>
      if may_read (fs st) p then (Ret (f_data f), st)
      else (Raise OSError, st)
    end.

(** [with open(p, 'wb') as f: f.write(data)] *)
Definition write_file (p : string) (data : bytes) : M state unit :=
  fun st =>
    if negb (may_write (fs st) p) || bool_decide (p ∈ fs_dirs (fs st))
    then (Raise OSError, st)
    else
      let mode := match fs_files (fs st) !! p with
                  | Some f => f_mode f
                  | None => 420%Z
                  end in
      (Ret tt, set_fs (set_files (<[p := {| f_data := data; f_mode := mode |}]>
                                    (fs_files (fs st))) (fs st)) st).

(** [os.chmod(p, mode)] and [Path.chmod(mode)] *)
Definition chmod (p : string) (mode : Z) : M state unit :=
  fun st =>
    match fs_files (fs st) !! p with
    | None =>
      if bool_decide (p ∈ fs_dirs (fs st)) then (Ret tt, st)
      else (Raise FileNotFoundError, st)
    | Some f =>
      if may_write (fs st) p
      then (Ret tt, set_fs (set_files (<[p := {| f_data := f_data f; f_mode := mode |}]>
                                         (fs_files (fs st))) (fs st)) st)
      else (Raise OSError, st)
    end.

(** [os.remove(p)] *)
Definition remove (p : string) : M state unit :=
  fun st =>
    match fs_files (fs st) !! p with
    | None =>
      if bool_decide (p ∈ fs_dirs (fs st)) then (Raise OSError, st)
      else (Raise FileNotFoundError, st)
    | Some f =>
      if may_write (fs st) p
      then (Ret tt, set_fs (set_files (delete p (fs_files (fs st))) (fs st)) st)
      else (Raise OSError, st)
    end.

(** [Path.mkdir(mode=..., exist_ok=True)] *)
Definition mkdir (p : string) (mode : Z) : M state unit :=
  fun st =>
    if bool_decide (p ∈ fs_dirs (fs st)) then (Ret tt, st)
    else if bool_decide (is_Some (fs_files (fs st) !! p)) ||
            negb (may_write (fs st) p)
    then (Raise OSError, st)
    else (Ret tt, set_fs {| fs_files := fs_files (fs st);
                            fs_dirs := {[p]} ∪ fs_dirs (fs st);
                            fs_denied := fs_denied (fs st) |} st).

(** [Path(p).expanduser()], for the current user. *)
Definition expanduser (home_dir p : string) : string :=
  match p with
  | String "~"%char EmptyString => home_dir
  | String "~"%char (String "/"%char rest) => home_dir +:+ "/" +:+ rest
  | _ => p
  end.

(** [dir / name], for a relative [name]. *)
Definition path_join (dir name : string) : string := dir +:+ "/" +:+ name.

(** **** Names in a directory *)

(** [s] without the prefix [pre], if it starts with it. *)
Fixpoint strip_prefix (pre s : string) : option string :=
  match pre, s with
  | EmptyString, _ => Some s
  | String c pre', String d s' =>
    if bool_decide (c = d) then strip_prefix pre' s' else None
  | String _ _, EmptyString => None
  end.

Fixpoint has_char (c : ascii) (s : string) : bool :=
  match s with
  | EmptyString => false
  | String d s' => bool_decide (c = d) || has_char c s'
  end.

(** The name under which [path] is an entry of the directory [dir]. *)
Definition entry_name (dir path : string) : option string :=
  match strip_prefix (dir +:+ "/") path with
  | Some name =>
    if has_char "/" name || bool_decide (name = EmptyString) then None else Some name
  | None => None
  end.

(** The entries of [dir], files and directories, in the order the file
    system lists them. *)
Definition dir_entries (dir : string) (f : filesys) : list string :=
  omap (entry_name dir) ((map_to_list (fs_files f)).*1 ++ elements (fs_dirs f)).

(** [name.endswith(suffix)]: [name], or what is left of it after some
    characters, is the suffix. *)
Fixpoint ends_with (suffix name : string) : bool :=
  bool_decide (name = suffix) ||
  match name with
  | EmptyString => false
  | String _ name' => ends_with suffix name'
  end.

(** The last character of a string. *)
Fixpoint last_char (s : string) : option ascii :=
  match s with
  | EmptyString => None
  | String c EmptyString => Some c
  | String _ s' => last_char s'
  end.

(** [name.rfind(".")] *)
Fixpoint rfind_dot (name : string) : option nat :=
  match name with
  | EmptyString => None
  | String c name' =>
    match rfind_dot name' with
    | Some i => Some (S i)
    | None => if bool_decide (c = "."%char) then Some 0 else None
    end
  end.

(** [PurePath.stem]: the name without its last suffix; a dot at the
    start or at the end of the name begins no suffix. *)
Definition stem (name : string) : string :=
  match rfind_dot name with
  | Some i =>
    if bool_decide (0 < i < String.length name - 1)
    then String.substring 0 i name
    else name
  | None => name
  end.

(** **** The [keyring] package *)

Definition set_password (service account password : string) : M state unit :=
  fun st =>
    if kr_available (keyring st)
    then (Ret tt, set_keyring (set_entries (<[(service, account) := password]>
                                              (kr_entries (keyring st))) (keyring st)) st)
    else (Raise KeyringError, st).

Definition get_password (service account : string) : M state (option string) :=
  fun st =>
    if kr_available (keyring st)
    then (Ret (kr_entries (keyring st) !! (service, account)), st)
    else (Raise KeyringError, st).

(** Deleting an entry that does not exist raises [PasswordDeleteError], a
    [KeyringError]. *)
Definition delete_password (service account : string) : M state unit :=
  fun st =>
    if kr_available (keyring st)
    then match kr_entries (keyring st) !! (service, account) with
         | Some _ =>
           (Ret tt, set_keyring (set_entries (delete (service, account)
                                                (kr_entries (keyring st))) (keyring st)) st)
         | None => (Raise KeyringError, st)
         end
    else (Raise KeyringError, st).

(** *** [KeyringStorage] *)

Definition SERVICE_NAME : string := "claude-throne".

Definition KeyringStorage_init (name : string) : KeyringStorage :=
  {| service_name := name |}.

Module KeyringStorage.
Section Methods.
Context `{!Codec}.

Definition _get_account_name (provider_id : string) : string :=
  provider_id +:+ "-api-key".

Definition metadata_account (provider_id : string) : string :=
  provider_id +:+ "-metadata".

(** [if metadata:] holds for a dictionary that is not empty. *)
Definition truthy (metadata : option (gmap string string)) : bool :=
  match metadata with
  | Some m => negb (bool_decide (m = ∅))
  | None => false
  end.

Definition store_key (self : KeyringStorage) (provider_id api_key : string)
    (metadata : option (gmap string string)) : M state bool :=
  try_except
    (let account_name := _get_account_name provider_id in
     (if truthy metadata then
        set_password (service_name self) (metadata_account provider_id)
          (json_dumps (metadata_value (default ∅ metadata)))
      else mret tt);;
     set_password (service_name self) account_name api_key;;
     mret true)
    (fun _ => mret false).

Definition get_key (self : KeyringStorage) (provider_id : string) : M state value :=
  try_except
    (key ← get_password (service_name self) (_get_account_name provider_id);
     mret (from_option VStr VNone key))
    (fun _ => mret VNone).

Definition has_key (self : KeyringStorage) (provider_id : string) : M state bool :=
  key ← get_key self provider_id;
  mret (negb (is_None key)).

(** The inner [try] of [delete_key]: the metadata entry is deleted and a
    [KeyringError] of that deletion is passed over. *)
Definition delete_metadata (self : KeyringStorage) (provider_id : string) : M state unit :=
  try_except (delete_password (service_name self) (metadata_account provider_id))
             (fun e => match e with
                       | KeyringError => mret tt
                       | _ => raise e
                       end).

Definition delete_key (self : KeyringStorage) (provider_id : string) : M state bool :=
  try_except
    (let account_name := _get_account_name provider_id in
     delete_metadata self provider_id;;
     delete_password (service_name self) account_name;;
     mret true)
    (fun _ => mret false).

(** The keyring cannot enumerate its entries. *)
Definition list_providers (self : KeyringStorage) : M state (list string) :=
  mret [].

End Methods.
End KeyringStorage.

(** *** [EncryptedFileStorage] *)

Module EncryptedFileStorage.
Section Methods.
Context `{!Fernet} `{!Codec}.

(** [_get_or_create_key], for the key file of the instance under
    construction. *)
Definition _get_or_create_key (key_file : string) : M state bytes :=
  try_except
    (present ← path_exists key_file;
     if present : bool then read_file key_file
     else
       r ← draw;
       let key := fernet_generate_key r in
       write_file key_file key;;
       chmod key_file 384;;
       mret key)
    (fun e => raise (StorageError e)).

(** [__init__] *)
Definition init (dir : string) : M state EncryptedFileStorage :=
  h ← gets home;
  let storage_dir := expanduser h dir in
  mkdir storage_dir 448;;
  let key_file := path_join storage_dir ".encryption_key" in
  key ← _get_or_create_key key_file;
  mret {| storage_dir := storage_dir; key_file := key_file; _encryption_key := key |}.

Definition _get_key_file (self : EncryptedFileStorage) (provider_id : string) : string :=
  path_join (storage_dir self) (provider_id +:+ ".key").

(** [Fernet(self._encryption_key)] *)
Definition new_fernet (self : EncryptedFileStorage) : M state bytes :=
  if fernet_key_ok (_encryption_key self) then mret (_encryption_key self)
  else raise ValueError.

Definition _encrypt_data (self : EncryptedFileStorage) (data : string) : M state bytes :=
  key ← new_fernet self;
  r ← draw;
  mret (fernet_encrypt key r (str_encode data)).

Definition _decrypt_data (self : EncryptedFileStorage) (encrypted_data : bytes)
    : M state string :=
  key ← new_fernet self;
  match fernet_decrypt key encrypted_data with
  | None => raise InvalidToken
  | Some plain =>
    match bytes_decode plain with
    | None => raise UnicodeDecodeError
    | Some text => mret text
    end
  end.

Definition store_key (self : EncryptedFileStorage) (provider_id api_key : string)
    (metadata : option (gmap string string)) : M state bool :=
  try_except
    (let key_file := _get_key_file self provider_id in
     let data := record_value api_key metadata in
     encrypted_data ← _encrypt_data self (json_dumps data);
     write_file key_file encrypted_data;;
     chmod key_file 384;;
     mret true)
    (fun _ => mret false).

(** [json.loads(text)] *)
Definition loads (text : string) : M state value :=
  match json_loads text with
  | Some v => mret v
  | None => raise JSONDecodeError
  end.

(** [data.get(key)]: only a dictionary has the method. *)
Definition dict_get (data : value) (key : string) : M state value :=
  match data with
  | VDict d => mret (default VNone (d !! key))
  | _ => raise AttributeError
  end.

Definition get_key (self : EncryptedFileStorage) (provider_id : string) : M state value :=
  try_except
    (let key_file := _get_key_file self provider_id in
     present ← path_exists key_file;
     if negb present : bool then mret VNone
     else
       encrypted_data ← read_file key_file;
       decrypted_json ← _decrypt_data self encrypted_data;
       data ← loads decrypted_json;
       dict_get data "api_key")
    (fun _ => mret VNone).

Definition has_key (self : EncryptedFileStorage) (provider_id : string) : M state bool :=
  path_exists (_get_key_file self provider_id).

Definition delete_key (self : EncryptedFileStorage) (provider_id : string) : M state bool :=
  try_except
    (let key_file := _get_key_file self provider_id in
     present ← path_exists key_file;
     (if present : bool then remove key_file else mret tt);;
     mret true)
    (fun _ => mret false).

(** [self.storage_dir.glob("*.key")] *)
Definition glob_key_files (self : EncryptedFileStorage) : M state (list string) :=
  gets (fun st => filter (fun name => ends_with ".key" name = true)
                    (dir_entries (storage_dir self) (fs st))).

Definition list_providers (self : EncryptedFileStorage) : M state (list string) :=
  try_except
    (names ← glob_key_files self;
     mret (stem <$> names))
    (fun _ => mret []).

End Methods.
End EncryptedFileStorage.

(** *** The interface and the selector *)

Section Selector.
Context `{!Fernet} `{!Codec}.

(** Method dispatch on the abstract class [SecretStorage]. *)
Definition store_key (self : SecretStorage) (provider_id api_key : string)
    (metadata : option (gmap string string)) : M state bool :=
  match self with
  | Keyring s => KeyringStorage.store_key s provider_id api_key metadata
  | EncryptedFile s => EncryptedFileStorage.store_key s provider_id api_key metadata
  end.

Definition get_key (self : SecretStorage) (provider_id : string) : M state value :=
  match self with
  | Keyring s => KeyringStorage.get_key s provider_id
  | EncryptedFile s => EncryptedFileStorage.get_key s provider_id
  end.

Definition has_key (self : SecretStorage) (provider_id : string) : M state bool :=
  match self with
  | Keyring s => KeyringStorage.has_key s provider_id
  | EncryptedFile s => EncryptedFileStorage.has_key s provider_id
  end.

Definition delete_key (self : SecretStorage) (provider_id : string) : M state bool :=
  match self with
  | Keyring s => KeyringStorage.delete_key s provider_id
  | EncryptedFile s => EncryptedFileStorage.delete_key s provider_id
  end.

(** The probe of [get_secret_storage]: a throwaway write and delete. *)
Definition probe : M state unit :=
  let test_service := "claude-throne-test" in
  let test_account := "test-account" in
  set_password test_service test_account "test";;
  delete_password test_service test_account.

(** [_storage_instance = EncryptedFileStorage()] *)
Definition use_file_storage : M state unit :=
  s ← EncryptedFileStorage.init "~/.claude-throne";
  modify (set_storage_instance (Some (EncryptedFile s))).

(** [get_secret_storage]; it returns the global [_storage_instance]. *)
Definition get_secret_storage (prefer_keyring : bool)
    : M state (option SecretStorage) :=
  cached ← gets _storage_instance;
  match cached with
  | Some s => mret (Some s)
  | None =>
    (if prefer_keyring then
       try_except
         (probe;;
          modify (set_storage_instance (Some (Keyring (KeyringStorage_init SERVICE_NAME)))))
         (fun _ => use_file_storage)
     else use_file_storage);;
    gets _storage_instance
  end.

End Selector.

(** *** Vocabulary of the specification *)

Section Vocabulary.
Context `{!Fernet} `{!Codec}.

(** What the bytes of a provider file stand for under the key of the
    instance: decrypted, decoded and deserialized, the way back from what
    [store_key] writes.  [None] when one of the stages fails. *)
Definition decode_record (self : EncryptedFileStorage) (content : bytes) : option value :=
  if fernet_key_ok (_encryption_key self) then
    plain ← fernet_decrypt (_encryption_key self) content;
    text ← bytes_decode plain;
    json_loads text
  else None.

(** The value [get_key] hands out for a deserialized record. *)
Definition api_key_of (data : option value) : value :=
  match data with
  | Some (VDict d) => default VNone (d !! "api_key")
  | _ => VNone
  end.

(** The metadata that can be read back for a provider: the sibling entry
    of the keyring, the metadata field of the encrypted record. *)
Definition stored_metadata (self : SecretStorage) (provider_id : string) (st : state)
    : option value :=
  match self with
  | Keyring s =>
    if kr_available (keyring st) then
      kr_entries (keyring st) !! (service_name s, KeyringStorage.metadata_account provider_id)
        ≫= json_loads
    else None
  | EncryptedFile s =>
    f ← fs_files (fs st) !! EncryptedFileStorage._get_key_file s provider_id;
    data ← decode_record s (f_data f);
    match data with
    | VDict d => d !! "metadata"
    | _ => None
    end
  end.

(** Nothing but the file at [path] differs between [st] and [st'],
    apart from the random source, which may have been read. *)
Definition touches_file (path : string) (st st' : state) : Prop :=
  home st' = home st /\ keyring st' = keyring st /\
  _storage_instance st' = _storage_instance st /\
  fs_dirs (fs st') = fs_dirs (fs st) /\
  fs_denied (fs st') = fs_denied (fs st) /\
  forall path', path' <> path -> fs_files (fs st') !! path' = fs_files (fs st) !! path'.

(** The storage directory of [dir] is in place and holds the key of
    [self] in a readable key file: the situation a construction leaves
    behind. *)
Definition holds_key (dir : string) (self : EncryptedFileStorage) (st : state) : Prop :=
  storage_dir self = expanduser (home st) dir /\
  key_file self = path_join (storage_dir self) ".encryption_key" /\
  storage_dir self ∈ fs_dirs (fs st) /\
  exists f, fs_files (fs st) !! key_file self = Some f /\
            f_data f = _encryption_key self /\
            may_read (fs st) (key_file self) = true.

(** The requests that change the store, and the state after serving
    them one after the other. *)
Inductive request : Type :=
  | Store (provider_id api_key : string) (metadata : option (gmap string string))
  | Delete (provider_id : string).

Definition serve (self : EncryptedFileStorage) (st : state) (r : request) : state :=
  match r with
  | Store provider_id api_key metadata =>
    snd (EncryptedFileStorage.store_key self provider_id api_key metadata st)
  | Delete provider_id => snd (EncryptedFileStorage.delete_key self provider_id st)
  end.

Definition serve_all (self : EncryptedFileStorage) (rs : list request) (st : state)
    : state :=
  foldl (serve self) st rs.

End Vocabulary.

(** A machine with the home directory of one user and nothing stored. *)
Definition fresh (keyring_works : bool) : state :=
  {| fs := {| fs_files := ∅; fs_dirs := {["/home/u"]}; fs_denied := ∅ |};
     keyring := {| kr_available := keyring_works; kr_entries := ∅ |};
     entropy := 0;
     home := "/home/u";
     _storage_instance := None |}.

(** The same machine with a key file of the given content and access. *)
Definition with_key_file (content : bytes) (access : option denial) : state :=
  {| fs := {| fs_files := {["/home/u/.claude-throne/.encryption_key" :=
                             {| f_data := content; f_mode := 384 |}]};
              fs_dirs := {["/home/u"; "/home/u/.claude-throne"]};
              fs_denied := from_option
                (fun a => {["/home/u/.claude-throne/.encryption_key" := a]}) ∅ access |};
     keyring := {| kr_available := false; kr_entries := ∅ |};
     entropy := 0;
     home := "/home/u";
     _storage_instance := None |}.

(** Replace the content of a file that exists. *)
Definition overwrite (p : string) (content : bytes) (st : state) : state :=
  set_fs (set_files (alter (fun f => {| f_data := content; f_mode := f_mode f |}) p
                       (fs_files (fs st))) (fs st)) st.

End Storage.

(** ** Provider adapters ([providers.py]) *)

Module Providers.
Import Storage.

Record ValidationResult : Type := {
  success : bool;
  error_message : option string;
  provider_status : option string
}.

(** The subclasses of [ProviderAdapter]. *)
Inductive adapter_class : Type :=
  OpenRouter | OpenAI | Together | Groq | Custom.

Record ProviderAdapter : Type := {
  kind : adapter_class;
  name : string;
  base_url : string
}.

(** The constructors, [CustomAdapter] with its [base_url] argument. *)
Definition OpenRouterAdapter : ProviderAdapter :=
  {| kind := OpenRouter; name := "OpenRouter"; base_url := "https://openrouter.ai/api" |}.
Definition OpenAIAdapter : ProviderAdapter :=
  {| kind := OpenAI; name := "OpenAI"; base_url := "https://api.openai.com" |}.
Definition TogetherAdapter : ProviderAdapter :=
  {| kind := Together; name := "Together AI"; base_url := "https://api.together.xyz" |}.
Definition GroqAdapter : ProviderAdapter :=
  {| kind := Groq; name := "Groq"; base_url := "https://api.groq.com" |}.
Definition CustomAdapter (url : string) : ProviderAdapter :=
  {| kind := Custom; name := "Custom Provider"; base_url := url |}.

(** [ProviderAdapter.get_headers] and its override in [OpenRouterAdapter]. *)
Definition base_get_headers (api_key : string) : gmap string string :=
  {[ "Authorization" := "Bearer " +:+ api_key;
     "Content-Type" := "application/json";
     "User-Agent" := "Claude-Throne-Secrets-Daemon/0.1.0" ]}.

Definition get_headers (self : ProviderAdapter) (api_key : string) : gmap string string :=
  match kind self with
  | OpenRouter =>
    {[ "HTTP-Referer" := "https://github.com/KHAEntertainment/claude-throne";
       "X-Title" := "Claude-Throne" ]} ∪ base_get_headers api_key
  | _ => base_get_headers api_key
  end.

(** *** The network as the adapters see it

    What [validate] can meet inside its [try]: [httpx.TimeoutException],
    which derives from [httpx.RequestError]; the other
    [httpx.RequestError]s; and exceptions that are no [httpx.RequestError]
    (a body that is no JSON, a method missing on the decoded value).  Each
    carries the text that [str] gives. *)
Inductive exception : Type :=
| TimeoutException (msg : string)
| RequestError (msg : string)
| Exception (msg : string).

Definition str (e : exception) : string :=
  match e with
  | TimeoutException msg | RequestError msg | Exception msg => msg
  end.

(** [isinstance(e, httpx.RequestError)] *)
Definition is_RequestError (e : exception) : bool :=
  match e with
  | TimeoutException _ | RequestError _ => true
  | Exception _ => false
  end.

(** A response: [json] is what [response.json()] returns, or the text of
    the exception it raises. *)
Record Response : Type := {
  status_code : Z;
  text : string;
  json : string + value
}.

Abbreviation request := (string * gmap string string)%type.

(** The requests sent so far, and the servers: what they answer to a
    request may depend on everything that was sent before. *)
Record network : Type := {
  sent : list request;
  server : list request -> request -> exception + Response
}.

(** [await client.get(url, headers=headers)] *)
Definition client_get (url : string) (headers : gmap string string) (net : network)
    : (exception + Response) * network :=
  (server net (sent net) (url, headers),
   {| sent := sent net ++ [(url, headers)]; server := server net |}).

(** [type(v).__name__] *)
Definition type_name (v : value) : string :=
  match v with
  | VNone => "NoneType"
  | VBool _ => "bool"
  | VInt _ => "int"
  | VStr _ => "str"
  | VList _ => "list"
  | VDict _ => "dict"
  end.

(** [data = response.json(); model_count = len(data.get("data", []))] *)
Definition model_count (response : Response) : exception + nat :=
  match json response with
  | inl msg => inl (Exception msg)
  | inr data =>
    match data with
    | VDict d =>
      let models := default (VList []) (d !! "data") in
      match models with
      | VList l => inr (length l)
      | VDict m => inr (size m)
      | VStr s => inr (String.length s)
      | _ => inl (Exception ("object of type '" +:+ type_name models +:+
                             "' has no len()"))
      end
    | _ => inl (Exception ("'" +:+ type_name data +:+ "' object has no attribute 'get'"))
    end
  end.

Definition ok (count : nat) : ValidationResult :=
  {| success := true; error_message := None;
     provider_status := Some ("OK - " +:+ pretty count +:+ " models available") |}.

Definition failed (message : string) : ValidationResult :=
  {| success := false; error_message := Some message; provider_status := None |}.

(** The two [except] clauses that close every [validate]. *)
Definition on_exception (timeout_message : string) (e : exception) : ValidationResult :=
  match e with
  | TimeoutException _ => failed timeout_message
  | _ => failed ("Connection failed: " +:+ str e)
  end.

(** [validate] of the four hosted providers: one method body, repeated
    in each class with its own endpoint and messages. *)
Definition validate_hosted (path unauthorized rate_limited : string)
    (self : ProviderAdapter) (api_key : string) (net : network)
    : ValidationResult * network :=
  let (reply, net') := client_get (base_url self +:+ path) (get_headers self api_key) net in
  (match reply with
   | inr response =>
     if bool_decide (status_code response = 200%Z) then
       match model_count response with
       | inr count => ok count
       | inl e => on_exception "Request timed out. Check your internet connection." e
       end
     else if bool_decide (status_code response = 401%Z) then failed unauthorized
     else if bool_decide (status_code response = 429%Z) then failed rate_limited
     else failed ("API returned status " +:+ pretty (status_code response) +:+ ": " +:+
                  text response)
   | inl e => on_exception "Request timed out. Check your internet connection." e
   end, net').

(** The loop of [CustomAdapter.validate] with its inner [try]: the
    result, or the exception that leaves the loop. *)
Fixpoint try_endpoints (self : ProviderAdapter) (api_key : string)
    (endpoints_to_try : list string) (net : network)
    : (exception + ValidationResult) * network :=
  match endpoints_to_try with
  | [] =>
    (inr (failed ("No valid models endpoint found. " +:+
                  "Ensure your provider is OpenAI-compatible.")), net)
  | endpoint :: rest =>
    let (reply, net') := client_get endpoint (get_headers self api_key) net in
    let attempt : exception + option ValidationResult :=
      match reply with
      | inr response =>
        if bool_decide (status_code response = 200%Z) then
          match model_count response with
          | inr count => inr (Some (ok count))
          | inl e => inl e
          end
        else if bool_decide (status_code response = 401%Z) then
          inr (Some (failed "Invalid API key for custom provider"))
        else if bool_decide (status_code response = 404%Z) then inr None
        else inr (Some (failed ("API returned status " +:+
                                pretty (status_code response) +:+ ": " +:+
                                text response)))
      | inl e => inl e
      end in
    match attempt with
    | inr (Some result) => (inr result, net')
    | inr None => try_endpoints self api_key rest net'
    | inl e =>
      if is_RequestError e then try_endpoints self api_key rest net'
      else (inl e, net')
    end
  end.

Definition endpoints_to_try (self : ProviderAdapter) : list string :=
  [base_url self +:+ "/v1/models";
   base_url self +:+ "/models";
   base_url self +:+ "/openai/v1/models"].

(** [validate], by class. *)
Definition validate (self : ProviderAdapter) (api_key : string) (net : network)
    : ValidationResult * network :=
  match kind self with
  | OpenRouter =>
    validate_hosted "/v1/models"
      "Invalid API key. Get your key at: https://openrouter.ai/keys"
      "Rate limited. Please try again in a moment." self api_key net
  | OpenAI =>
    validate_hosted "/v1/models"
      "Invalid API key. Get your key at: https://platform.openai.com/api-keys"
      "Rate limited or quota exceeded. Check your OpenAI billing." self api_key net
  | Together =>
    validate_hosted "/v1/models"
      "Invalid API key. Get your key at: https://api.together.xyz/settings/api-keys"
      "Rate limited. Please try again in a moment." self api_key net
  | Groq =>
    validate_hosted "/openai/v1/models"
      "Invalid API key. Get your key at: https://console.groq.com/keys"
      "Rate limited. Please try again in a moment." self api_key net
  | Custom =>
    let (attempt, net') := try_endpoints self api_key (endpoints_to_try self) net in
    (match attempt with
     | inr result => result
     | inl e =>
       on_exception
         "Request timed out. Check your internet connection and provider URL." e
     end, net')
  end.

(** The dictionary that [get_provider_registry] builds, in its order. *)
Definition provider_registry : list (string * ProviderAdapter) :=
  [("openrouter", OpenRouterAdapter);
   ("openai", OpenAIAdapter);
   ("together", TogetherAdapter);
   ("groq", GroqAdapter);
   ("custom", CustomAdapter "https://api.example.com")].

(** *** Vocabulary of the specification *)

(** The answer to the [i]-th of the requests [rs], sent one after the
    other on [net]. *)
Definition answer (net : network) (rs : list request) (i : nat)
    : option (exception + Response) :=
  r ← rs !! i; Some (server net (sent net ++ take i rs) r).

(** The result of [CustomAdapter.validate] when no endpoint is left. *)
Definition no_endpoint_found : ValidationResult :=
  failed ("No valid models endpoint found. " +:+
          "Ensure your provider is OpenAI-compatible.").

(** A network that gives the same answer to every request. *)
Definition always (a : exception + Response) : network :=
  {| sent := []; server := fun _ _ => a |}.

(** An answer that makes [CustomAdapter.validate] go on to its next
    endpoint: status 404, or an [httpx.RequestError]. *)
Definition passed_over (a : exception + Response) : bool :=
  match a with
  | inr response => bool_decide (status_code response = 404%Z)
  | inl e => is_RequestError e
  end.

End Providers.

(** ** Request handlers ([app.py]) *)

Module App.
Import Py Storage.

Record StoreKeyRequest : Type := {
  api_key : string;
  metadata : option (gmap string string)
}.

Record ProviderStatus : Type := {
  id : string;
  name : string;
  base_url : string;
  has_key : bool
}.

Record ProxyConfig : Type := {
  provider : string;
  custom_url : option string;
  reasoning_model : option string;
  execution_model : option string;
  port : Z;
  debug : bool
}.

(** [ProxyStatus]; the fields [port] and [pid] of the class. *)
Record ProxyStatus : Type := {
  running : bool;
  status_port : option Z;
  status_pid : option Z
}.

(** What [proxy_controller.start] can raise into the handler: an
    exception of its own, or the [TypeError] of [Popen] for an
    environment value that is not a string. *)
Inductive error : Type :=
| Raised (e : exn)
| TypeError.

(** The [detail] of an [HTTPException]: a text, or [str(e)]. *)
Inductive detail : Type :=
| Text (s : string)
| StrOf (e : error).

(** What a handler ends with: its return value or the [HTTPException] it
    raises. *)
Inductive reply (A : Type) : Type :=
| Reply (a : A)
| HTTPException (status_code : Z) (d : detail).
Arguments Reply {A} a.
Arguments HTTPException {A} status_code d.

(** The daemon: the machine of the storage, and the [proxy_controller] of
    [create_app] with the machine of its children. *)
Record state : Type := {
  secrets : Storage.state;
  proxy : Proxy.state
}.

Definition in_storage {A} (m : M Storage.state A) : M state A :=
  fun st => let (o, s) := m (secrets st) in (o, {| secrets := s; proxy := proxy st |}).

Definition in_proxy {A} (m : M Proxy.state A) : M state A :=
  fun st => let (o, c) := m (proxy st) in (o, {| secrets := secrets st; proxy := c |}).

(** [bool(v)] *)
Definition truthy (v : value) : bool :=
  match v with
  | VNone => false
  | VBool b => b
  | VInt n => negb (bool_decide (n = 0%Z))
  | VStr s => negb (bool_decide (s = ""))
  | VList l => negb (bool_decide (length l = 0))
  | VDict d => negb (bool_decide (size d = 0))
  end.

(** [bool(s)] for an [Optional[str]] *)
Definition given (s : option string) : bool :=
  match s with
  | Some s => negb (bool_decide (s = ""))
  | None => false
  end.

(** The environment values that are strings, if all of them are. *)
Definition unstr (v : value) : option string :=
  match v with
  | VStr s => Some s
  | _ => None
  end.

Definition as_strings (env : gmap string value) : option (gmap string string) :=
  if bool_decide (map_Forall (fun _ v => is_Some (unstr v)) env)
  then Some (omap unstr env) else None.

(** [proxy_controller.start(env=env, port=pt)] for an environment of
    Python values: [start] hands [env] to [Popen], which raises
    [TypeError] before it spawns when a value is not a string. *)
Definition controller_start (env : gmap string value) (pt : Z) (c : Proxy.state)
    : (error + option Proxy.ProxyProcessInfo) * Proxy.state :=
  match as_strings env with
  | Some env' =>
    match Proxy.start env' pt c with
    | (Ret info, c') => (inr info, c')
    | (Raise e, c') => (inl (Raised e), c')
    end
  | None =>
    if Proxy.is_running c then (inr (Proxy._info (Proxy.self c)), c)
    else (inl TypeError, c)
  end.

Section Handlers.
Context `{!Fernet} `{!Codec}.

(** [GET /secrets/providers] *)
Fixpoint provider_statuses (storage : SecretStorage)
    (providers : list (string * Providers.ProviderAdapter))
    : M state (list ProviderStatus) :=
  match providers with
  | [] => mret []
  | (provider_id, adapter) :: rest =>
    has ← in_storage (Storage.has_key storage provider_id);
    statuses ← provider_statuses storage rest;
    mret ({| id := provider_id; name := Providers.name adapter;
             base_url := Providers.base_url adapter; has_key := has |} :: statuses)
  end.

Definition list_providers (storage : SecretStorage)
    (providers : list (string * Providers.ProviderAdapter))
    : M state (reply (list ProviderStatus)) :=
  provider_statuses ← provider_statuses storage providers;
  mret (Reply provider_statuses).

(** [PUT /secrets/provider/{provider_id}]; the reply is the message. *)
Definition store_provider_key (provider_id : string) (request : StoreKeyRequest)
    (storage : SecretStorage) (providers : list (string * Providers.ProviderAdapter))
    : M state (reply string) :=
  if negb (bool_decide (provider_id ∈ providers.*1)) then
    mret (HTTPException 404 (Text ("Provider '" +:+ provider_id +:+ "' not found")))
  else
    success ← in_storage (Storage.store_key storage provider_id (api_key request)
                            (metadata request));
    if negb success : bool then
      mret (HTTPException 500 (Text "Failed to store API key securely"))
    else mret (Reply ("API key stored for " +:+ provider_id)).

(** [DELETE /secrets/provider/{provider_id}] *)
Definition delete_provider_key (provider_id : string)
    (storage : SecretStorage) (providers : list (string * Providers.ProviderAdapter))
    : M state (reply string) :=
  if negb (bool_decide (provider_id ∈ providers.*1)) then
    mret (HTTPException 404 (Text ("Provider '" +:+ provider_id +:+ "' not found")))
  else
    success ← in_storage (Storage.delete_key storage provider_id);
    if negb success : bool then
      mret (HTTPException 500 (Text "Failed to delete API key"))
    else mret (Reply ("API key deleted for " +:+ provider_id)).

(** [GET /proxy/status] *)
Definition proxy_status : M state (reply ProxyStatus) :=
  gets (fun st =>
    let proxy_controller := proxy st in
    if Proxy.is_running proxy_controller &&
       bool_decide (is_Some (Proxy.info proxy_controller))
    then Reply {| running := true;
                  status_port := Proxy.port <$> Proxy.info proxy_controller;
                  status_pid := Proxy.pid <$> Proxy.info proxy_controller |}
    else Reply {| running := false; status_port := None; status_pid := None |}).

(** [POST /proxy/stop]; the reply is the value of ["success"]. *)
Definition proxy_stop : M state (reply bool) :=
  ok ← in_proxy Proxy.stop;
  mret (Reply ok).

(** The dictionary [base_urls] of [proxy_start]. *)
Definition base_urls (cfg : ProxyConfig) : gmap string string :=
  {[ "openrouter" := "https://openrouter.ai/api";
     "openai" := "https://api.openai.com";
     "together" := "https://api.together.xyz";
     "groq" := "https://api.groq.com/openai";
     "custom" := default "" (if given (custom_url cfg) then custom_url cfg else None) ]}.

(** The part of [proxy_start] that composes the environment of the Node
    proxy: the environment, or the [HTTPException] raised on the way. *)
Definition compose_env (cfg : ProxyConfig) (provider_id : string) (api_key : value)
    : reply (gmap string value) :=
  let env : gmap string value := {[ "PORT" := VStr (pretty (port cfg)) ]} in
  let env := if given (reasoning_model cfg)
             then <["REASONING_MODEL" := VStr (default "" (reasoning_model cfg))]> env
             else env in
  let env := if given (execution_model cfg)
             then <["COMPLETION_MODEL" := VStr (default "" (execution_model cfg))]> env
             else env in
  let env := if debug cfg then <["DEBUG" := VStr "1"]> env else env in
  let base_urls := base_urls cfg in
  if bool_decide (provider_id = "custom") then
    if negb (given (custom_url cfg)) then
      HTTPException 400 (Text "custom_url is required for custom provider")
    else
      Reply (<["CUSTOM_API_KEY" := api_key]>
               (<["ANTHROPIC_PROXY_BASE_URL" := VStr (default "" (custom_url cfg))]> env))
  else if bool_decide (provider_id = "openrouter") then
    Reply (<["OPENROUTER_API_KEY" := api_key]>
             (<["ANTHROPIC_PROXY_BASE_URL" := VStr (base_urls !!! "openrouter")]> env))
  else if bool_decide (provider_id = "openai") then
    Reply (<["OPENAI_API_KEY" := api_key]>
             (<["ANTHROPIC_PROXY_BASE_URL" := VStr (base_urls !!! "openai")]> env))
  else if bool_decide (provider_id = "together") then
    Reply (<["TOGETHER_API_KEY" := api_key]>
             (<["ANTHROPIC_PROXY_BASE_URL" := VStr (base_urls !!! "together")]> env))
  else if bool_decide (provider_id = "groq") then
    Reply (<["GROQ_API_KEY" := api_key]>
             (<["ANTHROPIC_PROXY_BASE_URL" := VStr (base_urls !!! "groq")]> env))
  else
    HTTPException 400 (Text ("Unsupported provider '" +:+ provider_id +:+ "'")).

(** The [try] block that closes [proxy_start]. *)
Definition start_proxy (env : gmap string value) (cfg : ProxyConfig)
    : M state (reply ProxyStatus) :=
  fun st =>
    let (started, c) := controller_start env (port cfg) (proxy st) in
    (Ret match started with
         | inr (Some info) =>
           Reply {| running := true; status_port := Some (Proxy.port info);
                    status_pid := Some (Proxy.pid info) |}
         | inr None => HTTPException 500 (StrOf (Raised AttributeError))
         | inl e => HTTPException 500 (StrOf e)
         end,
     {| secrets := secrets st; proxy := c |}).

(** [POST /proxy/start] *)
Definition proxy_start (cfg : ProxyConfig)
    (storage : SecretStorage) (providers : list (string * Providers.ProviderAdapter))
    : M state (reply ProxyStatus) :=
  let provider_id := provider cfg in
  if negb (bool_decide (provider_id ∈ providers.*1)) then
    mret (HTTPException 400 (Text ("Unknown provider '" +:+ provider_id +:+ "'")))
  else
    api_key ← in_storage (Storage.get_key storage provider_id);
    if negb (truthy api_key) then
      mret (HTTPException 400
              (Text ("No API key stored for provider '" +:+ provider_id +:+ "'")))
    else
      match compose_env cfg provider_id api_key with
      | HTTPException status_code d => mret (HTTPException status_code d)
      | Reply env => start_proxy env cfg
      end.

End Handlers.

(** *** Vocabulary of the specification *)

(** The variable in which the Node proxy finds the key of a provider. *)
Definition key_variable (provider_id : string) : string :=
  if bool_decide (provider_id = "custom") then "CUSTOM_API_KEY"
  else if bool_decide (provider_id = "openrouter") then "OPENROUTER_API_KEY"
  else if bool_decide (provider_id = "openai") then "OPENAI_API_KEY"
  else if bool_decide (provider_id = "together") then "TOGETHER_API_KEY"
  else "GROQ_API_KEY".

End App.

(** ** An instance of the library interfaces

    A miniature [Fernet] and a miniature [json] that meet the interfaces,
    to run the storage on concrete states.  A token is the key followed
    by the plain text; a serialized dictionary is a tag followed by its
    strings, each character behind a ["1"] and each string closed by a
    ["0"]. *)

Module Mini.
Import Py Storage.

Definition key_ok (k : bytes) : bool := bool_decide (length k = 44).
Definition generate_key (r : N) : bytes := replicate 44 Byte.x41.
Definition encrypt (k : bytes) (r : N) (m : bytes) : bytes := k ++ m.
Definition decrypt (k t : bytes) : option bytes :=
  if bool_decide (take (length k) t = k) then Some (drop (length k) t) else None.

Fixpoint enc_str (s : string) (rest : string) : string :=
  match s with
  | EmptyString => String "0" rest
  | String c s' => String "1" (String c (enc_str s' rest))
  end.

Definition enc (l : list string) : string := foldr enc_str EmptyString l.

Fixpoint dec (t : string) : option (list string) :=
  match t with
  | EmptyString => Some []
  | String "0" rest => (EmptyString ::.) <$> dec rest
  | String "1" (String c rest) =>
    match dec rest with
    | Some (s :: l) => Some (String c s :: l)
    | _ => None
    end
  | _ => None
  end.

Fixpoint flat (l : list (string * string)) : list string :=
  match l with
  | [] => []
  | (k, v) :: l' => k :: v :: flat l'
  end.

Fixpoint unflat (l : list string) : list (string * string) :=
  match l with
  | k :: v :: l' => (k, v) :: unflat l'
  | _ => []
  end.

(** The string-valued entries of a dictionary. *)
Definition strs (d : gmap string value) : list (string * string) :=
  omap (fun kv => match kv.2 with
                  | VStr v => Some (kv.1, v)
                  | _ => None
                  end) (map_to_list d).

Definition dumps (v : value) : string :=
  match v with
  | VDict d =>
    match d !! "metadata" with
    | Some (VDict m) =>
      match d !! "api_key" with
      | Some (VStr k) => String "R" (enc (k :: flat (strs m)))
      | _ => EmptyString
      end
    | _ => String "M" (enc (flat (strs d)))
    end
  | _ => EmptyString
  end.

Definition loads (t : string) : option value :=
  match t with
  | String "R" rest =>
    match dec rest with
    | Some (k :: l) => Some (record_value k (Some (list_to_map (unflat l))))
    | _ => None
    end
  | String "M" rest =>
    match dec rest with
    | Some l => Some (metadata_value (list_to_map (unflat l)))
    | None => None
    end
  | _ => None
  end.

End Mini.

(** * Proofs *)

(** ** Frame rules of the monad *)

Module PyProofs.
Import Py.

Section Frames.
Context {S : Type} (R : relation S) `{!PreOrder R}.

Lemma frames_ret {A} (a : A) : frames R (ret a : M S A).
Proof. intros s. reflexivity. Qed.

Lemma frames_raise {A} e : frames R (raise e : M S A).
Proof. intros s. reflexivity. Qed.

Lemma frames_gets {A} (f : S -> A) : frames R (gets f).
Proof. intros s. reflexivity. Qed.

Lemma frames_bind {A B} (m : M S A) (k : A -> M S B) :
  frames R m -> (forall a, frames R (k a)) -> frames R (bind m k).
Proof.
  intros Hm Hk s. unfold bind. specialize (Hm s).
  destruct (m s) as [[a|e] s1]; simpl in *; [|done].
  etrans; [exact Hm | apply Hk].
Qed.

Lemma frames_try_except {A} (m : M S A) (h : exn -> M S A) :
  frames R m -> (forall e, frames R (h e)) -> frames R (try_except m h).
Proof.
  intros Hm Hh s. unfold try_except. specialize (Hm s).
  destruct (m s) as [[a|e] s1]; simpl in *; [done|].
  etrans; [exact Hm | apply Hh].
Qed.

Lemma frames_try_finally_return {A B} (m : M S A) (f : M S B) :
  frames R m -> frames R f -> frames R (try_finally_return m f).
Proof.
  intros Hm Hf s. unfold try_finally_return.
  etrans; [apply Hm | apply Hf].
Qed.
End Frames.

End PyProofs.


(** ** The miniature libraries meet the interfaces *)

Module MiniProofs.
Import Py Storage Mini.

Lemma decrypt_encrypt k r m : decrypt k (encrypt k r m) = Some m.
Proof.
  unfold decrypt, encrypt.
  rewrite take_app_length, drop_app_length. by rewrite bool_decide_eq_true_2.
Qed.

Lemma key_length k : key_ok k = true -> 44 <= length k.
Proof. unfold key_ok. intros Hk%bool_decide_eq_true. lia. Qed.

Lemma dec_enc_str (s rest : string) :
  dec (enc_str s rest) = (s ::.) <$> dec rest.
Proof.
  induction s as [|c s IH]; [done|].
  cbn [enc_str dec]. rewrite IH. by destruct (dec rest).
Qed.

Lemma dec_enc (l : list string) : dec (enc l) = Some l.
Proof.
  induction l as [|s l IH]; [done|].
  unfold enc in *. cbn [foldr]. by rewrite dec_enc_str, IH.
Qed.

Lemma unflat_flat (l : list (string * string)) : unflat (flat l) = l.
Proof. induction l as [|[k v] l IH]; [done|]. simpl. by rewrite IH. Qed.

Lemma strs_fmap (m : gmap string string) : strs (VStr <$> m) = map_to_list m.
Proof.
  unfold strs. rewrite map_to_list_fmap.
  induction (map_to_list m) as [|[k v] l IH]; [done|].
  cbn. f_equal. exact IH.
Qed.

Lemma loads_dumps_metadata (m : gmap string string) :
  loads (dumps (metadata_value m)) = Some (metadata_value m).
Proof.
  unfold metadata_value, dumps. rewrite lookup_fmap.
  assert (loads (String "M" (enc (flat (strs (VStr <$> m))))) =
          Some (VDict (VStr <$> m))) as Hm.
  { cbn [loads]. rewrite dec_enc, unflat_flat, strs_fmap, list_to_map_to_list. done. }
  destruct (m !! "metadata"); exact Hm.
Qed.

Lemma loads_dumps_record (k : string) (metadata : option (gmap string string)) :
  loads (dumps (record_value k metadata)) = Some (record_value k metadata).
Proof.
  unfold record_value at 1. unfold dumps.
  rewrite lookup_insert_ne, lookup_insert_eq by done.
  unfold metadata_value at 1. rewrite lookup_insert_eq.
  cbn [loads]. rewrite dec_enc, unflat_flat, strs_fmap, list_to_map_to_list.
  by destruct metadata.
Qed.

#[export] Instance fernet : Fernet := {|
  fernet_key_ok := key_ok;
  fernet_generate_key := generate_key;
  fernet_encrypt := encrypt;
  fernet_decrypt := decrypt;
  fernet_generate_key_ok := fun _ => eq_refl;
  fernet_key_length := key_length;
  fernet_decrypt_encrypt := fun k r m _ => decrypt_encrypt k r m
|}.

#[export] Instance codec : Codec := {|
  json_dumps := dumps;
  json_loads := loads;
  str_encode := String.list_byte_of_string;
  bytes_decode := fun b => Some (String.string_of_list_byte b);
  json_loads_dumps_record := loads_dumps_record;
  json_loads_dumps_metadata := loads_dumps_metadata;
  bytes_decode_encode := fun s => f_equal Some (String.string_of_list_byte_of_string s)
|}.

End MiniProofs.

(** ** The proxy process controller *)

Module ProxyProofs.
Import Py PyProofs Proxy.

#[local] Ltac py_unfold :=
  unfold mbind, M_bind, bind, mret, M_ret, ret, raise, gets, modify,
    try_except, try_finally_return in *.

#[global] Instance ages_preorder : PreOrder ages.
Proof.
  split.
  - intros w h Hh. exact Hh.
  - intros w1 w2 w3 H12 H23 h Hh. apply H23, H12, Hh.
Qed.

#[global] Instance settles_preorder : PreOrder settles.
Proof.
  split.
  - intros st. split; reflexivity.
  - intros s1 s2 s3 [Hp12 Ha12] [Hp23 Ha23]. split.
    + congruence.
    + etrans; eassumption.
Qed.

Lemma exited_at_mono (t t' : N) (p : process) :
  (t <= t')%N -> exited_at t p = true -> exited_at t' p = true.
Proof.
  unfold exited_at. destruct (p_exit_at p) as [te|]; [|done].
  rewrite !N.leb_le. lia.
Qed.

Lemma exited_at_schedule (t t' : N) (p : process) :
  exited_at t p = true -> exited_at t (schedule_exit t' p) = true.
Proof.
  unfold exited_at, schedule_exit. simpl.
  destruct (p_exit_at p) as [te|]; [|done].
  rewrite !N.leb_le. lia.
Qed.

Lemma ages_set_now (t : N) (w : world) : (now w <= t)%N -> ages w (set_now t w).
Proof.
  intros Ht h. unfold has_exited. simpl.
  destruct (procs w !! h) as [p|]; [|done].
  apply exited_at_mono, Ht.
Qed.

Lemma ages_schedule (h : Z) (p : process) (t : N) (w : world) :
  procs w !! h = Some p ->
  ages w (set_procs (<[h := schedule_exit t p]> (procs w)) w).
Proof.
  intros Hp h'. unfold has_exited. simpl.
  destruct (decide (h = h')) as [<-|Hne].
  - rewrite lookup_insert_eq, Hp. apply exited_at_schedule.
  - rewrite lookup_insert_ne by done. done.
Qed.

Lemma send_signal_settles raises exit_after (h : Z) :
  frames settles (send_signal raises exit_after h).
Proof.
  intros st. unfold send_signal.
  destruct (procs (os st) !! h) as [p|] eqn:Hp; [|reflexivity].
  destruct (exited_at (now (os st)) p); [reflexivity|].
  destruct (raises (p_script p)); [reflexivity|].
  destruct (exit_after (p_script p)) as [d|]; [|reflexivity].
  split; [done|]. simpl. by apply ages_schedule.
Qed.

Lemma wait_settles (h : Z) (timeout : N) : frames settles (wait h timeout).
Proof.
  intros st. unfold wait.
  destruct (procs (os st) !! h) as [p|]; [|reflexivity].
  destruct (p_exit_at p) as [te|].
  - destruct (te <=? now (os st) + timeout)%N;
      (split; [done|]; simpl; apply ages_set_now; lia).
  - split; [done|]. simpl. apply ages_set_now. lia.
Qed.

Lemma sleep_settles (ms : N) : frames settles (sleep ms).
Proof.
  intros st. split; [done|]. simpl. apply ages_set_now. lia.
Qed.

Lemma _wait_for_port_loop_settles (fuel : nat) (pt : Z) (deadline : N) :
  frames settles (_wait_for_port_loop fuel pt deadline).
Proof.
  induction fuel as [|fuel IH]; simpl.
  - apply frames_ret; apply _.
  - apply frames_bind; [apply _ | apply frames_gets; apply _ |].
    intros t. destruct (t <? deadline)%N; [|apply frames_ret; apply _].
    apply frames_bind; [apply _ | apply frames_gets; apply _ |].
    intros [|]; [apply frames_ret; apply _|].
    apply frames_bind; [apply _ | apply sleep_settles | intros _; exact IH].
Qed.

Lemma _wait_for_port_settles (pt : Z) (timeout : N) :
  frames settles (_wait_for_port pt timeout).
Proof.
  apply frames_bind; [apply _ | apply frames_gets; apply _ |].
  intros t. apply _wait_for_port_loop_settles.
Qed.

(** The loop of [_wait_for_port] ends by its own deadline test, not by
    lack of fuel: more fuel changes nothing. *)
Lemma _wait_for_port_loop_fuel (fuel extra : nat) (pt : Z) (deadline : N) (st : state) :
  (deadline <= now (os st) + 100 * N.of_nat fuel)%N ->
  _wait_for_port_loop (fuel + extra) pt deadline st =
  _wait_for_port_loop fuel pt deadline st.
Proof.
  revert st. induction fuel as [|fuel IH]; intros st Hd.
  - destruct extra as [|extra]; [done|]. simpl. py_unfold. unfold time, gets.
    replace (now (os st) <? deadline)%N with false; [done|].
    symmetry. apply N.ltb_ge. lia.
  - simpl. py_unfold. unfold time, connect, sleep, gets, modify.
    destruct (now (os st) <? deadline)%N; [|done].
    destruct (existsb _ _); [done|].
    apply IH. simpl. lia.
Qed.

Lemma _wait_for_port_total (extra : nat) (pt : Z) (timeout : N) (st : state) :
  _wait_for_port_loop (S (N.to_nat (timeout / 100)) + extra) pt
    (now (os st) + timeout)%N st =
  _wait_for_port pt timeout st.
Proof.
  unfold _wait_for_port. py_unfold. unfold time, gets.
  apply _wait_for_port_loop_fuel.
  pose proof (N.mod_upper_bound timeout 100 ltac:(lia)).
  pose proof (N.div_mod' timeout 100). lia.
Qed.

(** [_wait_for_port] returns a boolean: it never raises. *)
Lemma _wait_for_port_loop_returns (fuel : nat) (pt : Z) (deadline : N) (st : state) :
  exists b, fst (_wait_for_port_loop fuel pt deadline st) = Ret b.
Proof.
  revert st. induction fuel as [|fuel IH]; intros st; simpl.
  - by exists false.
  - py_unfold. unfold time, connect, sleep, gets, modify.
    destruct (now (os st) <? deadline)%N; [|by exists false].
    destruct (existsb _ _); [by exists true|]. apply IH.
Qed.

Lemma _wait_for_port_returns (pt : Z) (timeout : N) (st : state) :
  exists b, fst (_wait_for_port pt timeout st) = Ret b.
Proof. unfold _wait_for_port. py_unfold. apply _wait_for_port_loop_returns. Qed.

(** *** [start] *)

Lemma start_running (env : gmap string string) (pt : Z) (st : state) :
  is_running st = true ->
  start env pt st = (Ret (_info (self st)), st).
Proof. intros Hr. unfold start. py_unfold. by rewrite Hr. Qed.

Lemma start_no_program (env : gmap string string) (pt : Z) (st : state) :
  is_running st = false -> launches (os st) = [] ->
  start env pt st = (Raise OSError, st).
Proof.
  intros Hr Hl. unfold start. py_unfold. rewrite Hr. unfold Popen. by rewrite Hl.
Qed.

Lemma start_spawns (env : gmap string string) (pt : Z) (st : state) sc rest :
  is_running st = false -> launches (os st) = sc :: rest ->
  let h := next_pid (os st) in
  let st1 := spawned env st in
  start env pt st =
  match _wait_for_port pt 15000 st1 with
  | (Ret true, st2) =>
    let i := {| pid := h; port := pt; started_at := now (os st) |} in
    (Ret (Some i), set_info (Some i) st2)
  | (Ret false, st2) =>
    (Raise start_failed, snd (try_except (terminate h) (fun _ => mret tt) st2))
  | (Raise e, st2) => (Raise e, st2)
  end.
Proof.
  intros Hr Hl h st1. unfold start. py_unfold. rewrite Hr.
  subst st1. unfold spawned, Popen. rewrite Hl. simpl. unfold time, gets. simpl.
  fold h.
  destruct (_wait_for_port pt 15000 _) as [[[|]|e] st2]; simpl; try done.
  destruct (terminate h st2) as [[[]|e] st3]; done.
Qed.

Lemma start_tail_settles (h : Z) (st2 : state) :
  settles st2 (snd (try_except (terminate h) (fun _ => mret tt) st2)).
Proof.
  apply (frames_try_except settles).
  - apply send_signal_settles.
  - intros e. apply frames_ret; apply _.
Qed.

(** Whatever [start] does, the controller stays consistent. *)
Lemma start_consistent (env : gmap string string) (pt : Z) (st : state) :
  consistent (self st) -> consistent (self (snd (start env pt st))).
Proof.
  intros Hc. destruct (is_running st) eqn:Hr.
  - by rewrite start_running.
  - destruct (launches (os st)) as [|sc rest] eqn:Hl.
    + by rewrite start_no_program.
    + rewrite (start_spawns _ _ _ sc rest) by done. simpl.
      pose proof (_wait_for_port_settles pt 15000 (spawned env st)) as [Hp _].
      destruct (_wait_for_port pt 15000 _) as [[[|]|e] st2]; cbn [fst snd] in *.
      * intros Hn. cbn in Hn. rewrite Hp in Hn. discriminate.
      * pose proof (start_tail_settles (next_pid (os st)) st2) as [Hp' _].
        intros Hn. rewrite Hp', Hp in Hn. discriminate.
      * intros Hn. rewrite Hp in Hn. discriminate.
Qed.

(** A child that is alive after [start] was alive before, or is the one
    [start] has just spawned and now holds. *)
Lemma start_one_child (env : gmap string string) (pt : Z) (st : state) (lost : list Z) :
  one_child st lost -> one_child (snd (start env pt st)) lost.
Proof.
  intros Hone. destruct (is_running st) eqn:Hr.
  { by rewrite start_running. }
  destruct (launches (os st)) as [|sc rest] eqn:Hl.
  { by rewrite start_no_program. }
  rewrite (start_spawns _ _ _ sc rest) by done. simpl.
  assert (one_child (spawned env st) lost) as Hsp.
  { intros h. unfold spawned, Popen, has_exited. rewrite Hl. simpl.
    destruct (decide (next_pid (os st) = h)) as [->|Hne]; [by left|].
    rewrite lookup_insert_ne by done. intros Hh.
    destruct (Hone h) as [Hp|Hin]; [exact Hh| |by right].
    unfold is_running in Hr. rewrite Hp in Hr. unfold has_exited in Hr.
    rewrite Hh in Hr. discriminate. }
  assert (forall st', settles (spawned env st) st' -> one_child st' lost) as Hsettle.
  { intros st' [Hp Ha] h Hh. rewrite Hp. apply Hsp.
    destruct (has_exited h (os (spawned env st))) eqn:He; [|done].
    apply Ha in He. congruence. }
  pose proof (_wait_for_port_settles pt 15000 (spawned env st)) as Hw.
  destruct (_wait_for_port pt 15000 _) as [[[|]|e] st2]; cbn [fst snd] in *.
  - intros h Hh. destruct (Hsettle st2 Hw h Hh) as [Hp|Hin]; [by left|by right].
  - apply Hsettle. etrans; [exact Hw|]. apply start_tail_settles.
  - by apply Hsettle.
Qed.

(** *** [stop] *)

Lemma stop_signals_settles (h : Z) : frames settles (stop_signals h).
Proof.
  apply frames_try_except; [apply _ | |].
  - apply frames_bind; [apply _ | apply send_signal_settles |].
    intros _. apply wait_settles.
  - intros _. apply frames_try_except; [apply _ | apply send_signal_settles |].
    intros _. apply frames_ret; apply _.
Qed.

Lemma stop_idle (st : state) :
  _proc (self st) = None -> stop st = (Ret true, st).
Proof. intros Hp. unfold stop. py_unfold. by rewrite Hp. Qed.

Lemma stop_held (st : state) (h : Z) :
  _proc (self st) = Some h ->
  let st1 := snd (stop_signals h st) in
  stop st = (Ret (has_exited h (os st1)), set_info None (set_proc None st1)).
Proof. intros Hp st1. unfold stop. py_unfold. by rewrite Hp. Qed.

Lemma stop_one_child (st : state) (lost : list Z) :
  one_child st lost -> one_child (run_call CallStop (st, lost)).1 (run_call CallStop (st, lost)).2.
Proof.
  intros Hone. simpl. destruct (_proc (self st)) as [h|] eqn:Hp.
  - rewrite (stop_held st h Hp). cbn [fst snd].
    pose proof (stop_signals_settles h st) as [_ Ha].
    intros h' Hh'. cbn [os self set_info set_proc _proc] in *. right.
    assert (has_exited h' (os st) = false) as Hb.
    { destruct (has_exited h' (os st)) eqn:He; [|done]. apply Ha in He. congruence. }
    destruct (Hone h' Hb) as [Heq|Hin].
    + assert (h' = h) as -> by congruence. rewrite Hh'. by left.
    + destruct (has_exited h _); [done|]. by right.
  - rewrite (stop_idle st Hp). done.
Qed.

Lemma run_call_one_child (c : call) (x : state * list Z) :
  one_child x.1 x.2 -> one_child (run_call c x).1 (run_call c x).2.
Proof.
  destruct x as [st lost]. destruct c as [env pt| |ms]; intros Hone.
  - simpl. by apply start_one_child.
  - by apply stop_one_child.
  - cbn [run_call fst snd]. intros h Hh. apply Hone.
    destruct (has_exited h (os st)) eqn:He; [|done].
    pose proof (sleep_settles ms st) as [_ Ha]. apply Ha in He. congruence.
Qed.

Lemma run_one_child (cs : list call) (x : state * list Z) :
  one_child x.1 x.2 -> one_child (run cs x).1 (run cs x).2.
Proof.
  revert x. induction cs as [|c cs IH]; intros x Hone; [done|].
  simpl. apply IH. by apply run_call_one_child.
Qed.

Lemma boot_one_child t vars first_pid scripts :
  one_child (boot t vars first_pid scripts) [].
Proof. intros h. unfold has_exited. simpl. by rewrite lookup_empty. Qed.

(** *** Runs of the daemon *)

Lemma stop_consistent (st : state) :
  consistent (self st) -> consistent (self (snd (stop st))).
Proof.
  intros Hc. destruct (_proc (self st)) as [h|] eqn:Hp.
  - by rewrite (stop_held st h Hp).
  - by rewrite (stop_idle st Hp).
Qed.

(** Every controller that a run of the daemon reaches is consistent. *)
Lemma run_consistent (cs : list call) (x : state * list Z) :
  consistent (self x.1) -> consistent (self (run cs x).1).
Proof.
  revert x. induction cs as [|c cs IH]; intros [st lost] Hc; [done|].
  cbn [run]. apply IH. destruct c as [env pt| |ms]; cbn [run_call fst].
  - by apply start_consistent.
  - by apply stop_consistent.
  - done.
Qed.

(** Without a [stop] no child is let go of. *)
Lemma run_without_stop (cs : list call) (x : state * list Z) :
  CallStop ∉ cs -> (run cs x).2 = x.2.
Proof.
  revert x. induction cs as [|c cs IH]; intros [st lost] Hn; [done|].
  cbn [run]. rewrite IH by (intros Hin; apply Hn; by right).
  destruct c as [env pt| |ms]; [done| |done].
  exfalso. apply Hn. by left.
Qed.

(** In a run of [start] calls and pauses the only child alive is the one
    the controller holds. *)
Lemma starts_keep_one_child t vars first_pid scripts (cs : list call) (h : Z) :
  CallStop ∉ cs ->
  has_exited h (os (run cs (boot t vars first_pid scripts, [])).1) = false ->
  _proc (self (run cs (boot t vars first_pid scripts, [])).1) = Some h.
Proof.
  intros Hn Hh.
  destruct (run_one_child cs (boot t vars first_pid scripts, [])
              (boot_one_child t vars first_pid scripts) h Hh) as [Hp|Hin]; [done|].
  rewrite run_without_stop in Hin by done. by apply not_elem_of_nil in Hin.
Qed.

(** *** The claims about the controller *)

Lemma start_returns_info (env : gmap string string) (pt : Z) (st st' : state) r :
  start env pt st = (Ret r, st') -> r = _info (self st').
Proof.
  destruct (is_running st) eqn:Hr.
  { rewrite start_running by done. congruence. }
  destruct (launches (os st)) as [|sc rest] eqn:Hl.
  { rewrite start_no_program by done. discriminate. }
  rewrite (start_spawns _ _ _ sc rest) by done. cbn zeta.
  destruct (_wait_for_port pt 15000 _) as [[[|]|e] st2]; [|discriminate..].
  intros [= <- <-]. done.
Qed.

(** A startup failure always leaves the handle of the half-started child
    in the controller: [start] has no path that clears [_proc]. *)
Lemma start_failure_retains_child (env : gmap string string) (pt : Z) (st st' : state) :
  start env pt st = (Raise start_failed, st') ->
  _proc (self st') = Some (next_pid (os st)) /\ _info (self st') = _info (self st).
Proof.
  destruct (is_running st) eqn:Hr.
  { rewrite start_running by done. discriminate. }
  destruct (launches (os st)) as [|sc rest] eqn:Hl.
  { rewrite start_no_program by done. discriminate. }
  rewrite (start_spawns _ _ _ sc rest) by done. cbn zeta.
  pose proof (_wait_for_port_settles pt 15000 (spawned env st)) as [Hp _].
  destruct (_wait_for_port pt 15000 _) as [[[|]|e] st2] eqn:Hw; [discriminate| |].
  - intros [= <-].
    pose proof (start_tail_settles (next_pid (os st)) st2) as [Hp' _].
    rewrite Hp'. cbn [snd] in Hp. rewrite Hp. unfold spawned, Popen. by rewrite Hl.
  - pose proof (_wait_for_port_returns pt 15000 (spawned env st)) as [b Hb].
    rewrite Hw in Hb. discriminate.
Qed.

(** C1 (the code departs from the claim).  A fresh controller starts a
    child that never opens port 3000 and ignores SIGTERM.  [start] raises
    the startup failure after its 15 s of polling, but the controller is
    not Idle afterwards: [_proc] still holds the child, which is alive, so
    [is_running] is true; a second [start] then returns [None] without
    spawning anything. *)
Theorem start_timeout_leaves_child :
  let st := boot 1000 ∅ 4000 [deaf] in
  let st' := snd (start ∅ 3000 st) in
  fst (start ∅ 3000 st) = Raise start_failed /\
  now (os st') = 16000%N /\
  _proc (self st') = Some 4000%Z /\
  is_running st' = true /\
  ~ idle st' /\
  start ∅ 3000 st' = (Ret None, st').
Proof. vm_compute. repeat split; discriminate. Qed.

(** A child that obeys SIGTERM is still alive when [start] raises, and
    its handle stays behind once it is gone. *)
Example start_timeout_obeying_child :
  let st' := snd (start ∅ 3000 (boot 1000 ∅ 4000 [mute])) in
  is_running st' = true /\
  is_running (snd (sleep 20 st')) = false /\
  _proc (self (snd (sleep 20 st'))) = Some 4000%Z.
Proof. vm_compute. done. Qed.

(** The info of an earlier child stays behind as well: after a
    successful start, a crash of that child and a failed restart,
    [_info] still describes the first child. *)
Example start_timeout_stale_info :
  let crashes := {| cs_listen := Some (3000%Z, 700%N); cs_crash_after := Some 2000%N;
                    cs_term_raises := false; cs_term_exit_after := Some 20%N;
                    cs_kill_raises := false; cs_kill_exit_after := Some 0%N |} in
  let st1 := snd (start ∅ 3000 (boot 1000 ∅ 4000 [crashes; mute])) in
  let st2 := snd (sleep 5000 st1) in
  let st3 := snd (start ∅ 3000 st2) in
  fst (start ∅ 3000 st2) = Raise start_failed /\
  self st3 = {| _proc := Some 4001%Z;
                _info := Some {| pid := 4000; port := 3000; started_at := 1000 |} |}.
Proof. vm_compute. done. Qed.



(** C8.  From every consistent controller [stop] returns (it never
    raises) and leaves the controller Idle, handle and info cleared.
    Without a handle it returns true and changes nothing.  With a handle
    it returns true exactly when the final [poll()] saw the child
    exited, whichever of the paths (graceful termination, kill after the
    5 s wait, signalling errors) led there. *)
Theorem stop_resets_controller (st : state) :
  consistent (self st) ->
  exists (ok : bool) (st' : state),
    stop st = (Ret ok, st') /\ idle st' /\
    match _proc (self st) with
    | None => ok = true /\ st' = st
    | Some h => ok = true <-> has_exited h (os st') = true
    end.
Proof.
  intros Hc. destruct (_proc (self st)) as [h|] eqn:Hp.
  - rewrite (stop_held st h Hp). eexists _, _. split; [reflexivity|].
    split; [reflexivity|]. done.
  - rewrite (stop_idle st Hp). exists true, st. split; [done|]. split; [|done].
    specialize (Hc Hp). unfold idle. destruct st as [[p i] w]. simpl in *. by subst.
Qed.

Lemma stop_resets_controller_witness :
  exists (ok : bool) (st' : state),
    stop (snd (start ∅ 3000 (boot 1000 ∅ 4000 [obedient]))) = (Ret ok, st') /\
    idle st' /\ (ok = true <-> has_exited 4000 (os st') = true).
Proof.
  apply (stop_resets_controller (snd (start ∅ 3000 (boot 1000 ∅ 4000 [obedient])))).
  vm_compute. discriminate.
Defined.

(** The paths of [stop], one by one. *)
Example stop_never_started :
  stop (boot 1000 ∅ 4000 [obedient]) = (Ret true, boot 1000 ∅ 4000 [obedient]).
Proof. reflexivity. Qed.

Example stop_graceful :
  let st := snd (start ∅ 3000 (boot 1000 ∅ 4000 [obedient])) in
  fst (stop st) = Ret true /\ self (snd (stop st)) = init /\
  now (os (snd (stop st))) = 1720%N.
Proof. vm_compute. done. Qed.

Example stop_forced_kill :
  let deaf_server := {| cs_listen := Some (3000%Z, 700%N); cs_crash_after := None;
                        cs_term_raises := false; cs_term_exit_after := None;
                        cs_kill_raises := false; cs_kill_exit_after := Some 0%N |} in
  let st := snd (start ∅ 3000 (boot 1000 ∅ 4000 [deaf_server])) in
  fst (stop st) = Ret true /\ self (snd (stop st)) = init /\
  now (os (snd (stop st))) = 6700%N.
Proof. vm_compute. done. Qed.

Example stop_kill_not_yet_seen :
  let st := snd (start ∅ 3000 (boot 1000 ∅ 4000 [lingering])) in
  fst (stop st) = Ret false /\ self (snd (stop st)) = init /\
  has_exited 4000 (os (snd (stop st))) = false.
Proof. vm_compute. done. Qed.

Example stop_signalling_fails :
  let st := snd (start ∅ 3000 (boot 1000 ∅ 4000 [untouchable])) in
  fst (stop st) = Ret false /\ self (snd (stop st)) = init /\
  has_exited 4000 (os (snd (stop st))) = false.
Proof. vm_compute. done. Qed.

(** After such a [stop] the next [start] spawns a second child next to
    the first one, which is why [one_child] keeps a list of the children
    that were let go. *)
Example start_after_unconfirmed_stop :
  let x := run [CallStart ∅ 3000; CallStop; CallStart ∅ 3000]
               (boot 1000 ∅ 4000 [untouchable; obedient], []) in
  has_exited 4000 (os x.1) = false /\ has_exited 4001 (os x.1) = false /\
  _proc (self x.1) = Some 4001%Z /\ x.2 = [4000%Z].
Proof. vm_compute. done. Qed.

(** *** Further properties of the controller *)

Lemma at_time_at_time (t t' : N) (st : state) :
  at_time t (at_time t' st) = at_time t st.
Proof. done. Qed.

Lemma at_time_now (st : state) : at_time (now (os st)) st = st.
Proof. by destruct st as [c []]. Qed.

Lemma accepted_at_time (pt : Z) (t t' : N) (st : state) :
  accepted pt (at_time t (at_time t' st)) = accepted pt (at_time t st).
Proof. done. Qed.

(** The polling loop, poll by poll: it returns at the [n]-th poll, with
    every earlier poll before the deadline and refused. *)
Lemma _wait_for_port_loop_polls (fuel : nat) (pt : Z) (deadline : N) (st : state) :
  (deadline <= now (os st) + 100 * N.of_nat fuel)%N ->
  exists (b : bool) (n : N),
    _wait_for_port_loop fuel pt deadline st =
      (Ret b, at_time (now (os st) + 100 * n) st) /\
    (forall k, (k < n)%N ->
       (now (os st) + 100 * k < deadline)%N /\
       accepted pt (at_time (now (os st) + 100 * k) st) = false) /\
    if b then (now (os st) + 100 * n < deadline)%N /\
              accepted pt (at_time (now (os st) + 100 * n) st) = true
    else (deadline <= now (os st) + 100 * n)%N.
Proof.
  revert st. induction fuel as [|fuel IH]; intros st Hd.
  - exists false, 0%N. cbn [_wait_for_port_loop]. rewrite N.mul_0_r, N.add_0_r, at_time_now.
    split; [done|]. split; [intros k Hk; lia|]. cbn in Hd. lia.
  - cbn [_wait_for_port_loop]. py_unfold. unfold time, gets.
    destruct (now (os st) <? deadline)%N eqn:Hlt.
    + apply N.ltb_lt in Hlt.
      destruct (accepted pt st) eqn:Hacc.
      * exists true, 0%N. rewrite N.mul_0_r, N.add_0_r, at_time_now.
        unfold accepted, connect, gets in Hacc. cbn [fst] in Hacc.
        unfold connect, gets. rewrite Hacc.
        split; [done|]. split; [intros k Hk; lia|]. split; [done|].
        unfold accepted, connect, gets. by cbn [fst].
      * unfold accepted, connect, gets in Hacc. cbn [fst] in Hacc.
        unfold connect at 1, gets. rewrite Hacc. unfold sleep, modify.
        destruct (IH (at_time (now (os st) + 100) st)) as (b & n & Hrun & Hbefore & Hend).
        { cbn. lia. }
        exists b, (N.succ n). fold (at_time (now (os st) + 100) st).
        rewrite Hrun. cbn [now os at_time set_os set_now] in *.
        replace (now (os st) + 100 * N.succ n)%N with (now (os st) + 100 + 100 * n)%N by lia.
        split; [done|]. split.
        -- intros k Hk. destruct (decide (k = 0%N)) as [->|Hk0].
           ++ rewrite N.mul_0_r, N.add_0_r, at_time_now. split; [done|].
              unfold accepted, connect, gets. by cbn [fst].
           ++ destruct (Hbefore (N.pred k)) as [Hb1 Hb2]; [lia|].
              replace (now (os st) + 100 * k)%N
                with (now (os st) + 100 + 100 * N.pred k)%N by lia.
              split; [done|]. exact Hb2.
        -- exact Hend.
    + apply N.ltb_ge in Hlt. exists false, 0%N.
      rewrite N.mul_0_r, N.add_0_r, at_time_now.
      split; [done|]. split; [intros k Hk; lia|]. done.
Qed.

Lemma _wait_for_port_run (pt : Z) (timeout : N) (st : state) :
  exists (b : bool) (n : N),
    _wait_for_port pt timeout st = (Ret b, at_time (now (os st) + 100 * n) st) /\
    (forall k, (k < n)%N ->
       (100 * k < timeout)%N /\
       accepted pt (at_time (now (os st) + 100 * k) st) = false) /\
    if b then (100 * n < timeout)%N /\
              accepted pt (at_time (now (os st) + 100 * n) st) = true
    else (timeout <= 100 * n)%N.
Proof.
  unfold _wait_for_port. py_unfold. unfold time, gets.
  destruct (_wait_for_port_loop_polls (S (N.to_nat (timeout / 100))) pt
              (now (os st) + timeout) st) as (b & n & Hrun & Hbefore & Hend).
  { pose proof (N.mod_upper_bound timeout 100 ltac:(lia)).
    pose proof (N.div_mod' timeout 100). lia. }
  exists b, n. split; [exact Hrun|]. split.
  - intros k Hk. destruct (Hbefore k Hk) as [H1 H2]. split; [lia|done].
  - destruct b; [destruct Hend; split; [lia|done]|lia].
Qed.

(** X1.  [_wait_for_port] never raises and touches nothing but the
    clock.  It polls at the start and then every 100 ms while the
    deadline has not passed, and returns at its [n]-th poll: true, at the
    first poll that is accepted, or false, at the first poll time that
    has reached the deadline, every poll before having been refused. *)
Theorem _wait_for_port_polls (pt : Z) (timeout : N) (st : state) :
  exists (b : bool) (n : N),
    _wait_for_port pt timeout st = (Ret b, at_time (now (os st) + 100 * n) st) /\
    (forall k, (k < n)%N ->
       (100 * k < timeout)%N /\
       accepted pt (at_time (now (os st) + 100 * k) st) = false) /\
    if b then (100 * n < timeout)%N /\
              accepted pt (at_time (now (os st) + 100 * n) st) = true
    else (timeout <= 100 * n)%N.
Proof. apply _wait_for_port_run. Qed.

#[global] Instance touches_only_preorder (h : Z) : PreOrder (touches_only h).
Proof.
  split.
  - intros st. by repeat split.
  - intros s1 s2 s3 (Ht12 & He12 & Hp12) (Ht23 & He23 & Hp23). repeat split.
    + lia.
    + congruence.
    + intros h' Hne. by rewrite Hp23, Hp12.
Qed.

Lemma send_signal_touches raises exit_after (h : Z) :
  frames (touches_only h) (send_signal raises exit_after h).
Proof.
  intros st. unfold send_signal.
  destruct (procs (os st) !! h) as [p|] eqn:Hp; [|reflexivity].
  destruct (exited_at (now (os st)) p); [reflexivity|].
  destruct (raises (p_script p)); [reflexivity|].
  destruct (exit_after (p_script p)) as [d|]; [|reflexivity].
  repeat split; cbn; [lia|]. intros h' Hne. by rewrite lookup_insert_ne.
Qed.

Lemma wait_touches (h : Z) (timeout : N) : frames (touches_only h) (wait h timeout).
Proof.
  intros st. unfold wait.
  destruct (procs (os st) !! h) as [p|]; [|reflexivity].
  destruct (p_exit_at p) as [te|].
  - destruct (te <=? now (os st) + timeout)%N; repeat split; cbn; lia.
  - repeat split; cbn; lia.
Qed.

Lemma stop_signals_touches (h : Z) : frames (touches_only h) (stop_signals h).
Proof.
  apply frames_try_except; [apply _ | |].
  - apply frames_bind; [apply _ | apply send_signal_touches |].
    intros _. apply wait_touches.
  - intros _. apply frames_try_except; [apply _ | apply send_signal_touches |].
    intros _. apply frames_ret; apply _.
Qed.

Lemma send_signal_instant raises exit_after (h : Z) (st : state) :
  now (os (snd (send_signal raises exit_after h st))) = now (os st).
Proof.
  unfold send_signal.
  destruct (procs (os st) !! h) as [p|]; [|done].
  destruct (exited_at (now (os st)) p); [done|].
  destruct (raises (p_script p)); [done|].
  by destruct (exit_after (p_script p)).
Qed.

Lemma wait_at_most (h : Z) (timeout : N) (st : state) :
  (now (os (snd (wait h timeout st))) <= now (os st) + timeout)%N.
Proof.
  unfold wait.
  destruct (procs (os st) !! h) as [p|]; [|cbn; lia].
  destruct (p_exit_at p) as [te|]; [|cbn; lia].
  destruct (te <=? now (os st) + timeout)%N eqn:Hle; cbn; [|lia].
  apply N.leb_le in Hle. lia.
Qed.

Lemma stop_signals_at_most (h : Z) (st : state) :
  (now (os (snd (stop_signals h st))) <= now (os st) + 5000)%N.
Proof.
  unfold stop_signals. py_unfold.
  pose proof (send_signal_instant cs_term_raises cs_term_exit_after h st) as Ht.
  fold terminate in Ht.
  destruct (terminate h st) as [[[]|e] st1]; cbn [snd] in Ht.
  - pose proof (wait_at_most h 5000 st1) as Hw.
    destruct (wait h 5000 st1) as [[[]|e] st2]; cbn [snd] in *; [lia|].
    pose proof (send_signal_instant cs_kill_raises cs_kill_exit_after h st2) as Hk.
    fold kill in Hk. destruct (kill h st2) as [[[]|e'] st3]; cbn [snd] in *; lia.
  - pose proof (send_signal_instant cs_kill_raises cs_kill_exit_after h st1) as Hk.
    fold kill in Hk. destruct (kill h st1) as [[[]|e'] st3]; cbn [snd] in *; lia.
Qed.

(** X2.  [stop] returns within the 5 s of its wait, signals no child but
    the one the controller holds, and leaves the environment untouched;
    a second [stop] right after is a no-op that returns true. *)
Theorem stop_bounded_and_idempotent (st : state) :
  let st' := snd (stop st) in
  (now (os st) <= now (os st') <= now (os st) + 5000)%N /\
  environ (os st') = environ (os st) /\
  (forall h, _proc (self st) <> Some h ->
             procs (os st') !! h = procs (os st) !! h) /\
  stop st' = (Ret true, st').
Proof.
  destruct (_proc (self st)) as [h|] eqn:Hp.
  - rewrite (stop_held st h Hp). cbn [snd os set_info set_proc].
    destruct (stop_signals_touches h st) as (Hlo & He & Hothers).
    pose proof (stop_signals_at_most h st) as Hhi.
    split; [lia|]. split; [done|]. split.
    + intros h' Hne. apply Hothers. congruence.
    + by apply stop_idle.
  - rewrite (stop_idle st Hp). cbn [snd]. split; [lia|]. split; [done|].
    split; [done|]. by apply stop_idle.
Qed.

Lemma spawned_eq (env : gmap string string) (st : state) sc rest :
  launches (os st) = sc :: rest ->
  spawned env st =
  {| self := {| _proc := Some (next_pid (os st)); _info := _info (self st) |};
     os := {| now := now (os st); environ := environ (os st);
              procs := <[next_pid (os st) := new_child env sc (os st)]> (procs (os st));
              next_pid := next_pid (os st) + 1; launches := rest |} |}.
Proof. intros Hl. unfold spawned, Popen. by rewrite Hl. Qed.

Lemma new_child_env (env : gmap string string) (sc : child_script) (w : world)
    (k : string) :
  p_env (new_child env sc w) !! k =
  match env !! k with
  | Some v => Some v
  | None => environ w !! k
  end.
Proof.
  cbn. rewrite lookup_union. destruct (env !! k), (environ w !! k); done.
Qed.

(** The shape of a [start] that spawns and returns. *)
Lemma start_success_shape (env : gmap string string) (pt : Z) (st st' : state)
    (r : option ProxyProcessInfo) :
  is_running st = false ->
  start env pt st = (Ret r, st') ->
  let h := next_pid (os st) in
  exists sc rest n p,
    launches (os st) = sc :: rest /\ launches (os st') = rest /\
    r = Some {| pid := h; port := pt; started_at := now (os st) |} /\
    self st' = {| _proc := Some h; _info := r |} /\
    procs (os st') = <[h := p]> (procs (os st)) /\
    p_script p = sc /\
    (forall k, p_env p !! k = match env !! k with
                              | Some v => Some v
                              | None => environ (os st) !! k
                              end) /\
    now (os st') = (now (os st) + 100 * n)%N /\ (100 * n < 15000)%N /\
    accepted pt st' = true.
Proof.
  intros Hr Hs h.
  destruct (launches (os st)) as [|sc rest] eqn:Hl.
  { rewrite start_no_program in Hs by done. discriminate. }
  rewrite (start_spawns _ _ _ sc rest) in Hs by done. cbn zeta in Hs.
  destruct (_wait_for_port_run pt 15000 (spawned env st)) as (b & n & Hrun & _ & Hend).
  rewrite Hrun in Hs. clear Hrun. rewrite (spawned_eq env st sc rest Hl) in *.
  destruct b; [|discriminate].
  injection Hs as <- <-. destruct Hend as [Hn Hacc].
  exists sc, rest, n, (new_child env sc (os st)).
  split; [done|]. split; [done|]. split; [done|]. split; [done|].
  split; [done|]. split; [done|]. split; [apply new_child_env|].
  split; [reflexivity|]. split; [done|]. exact Hacc.
Qed.

(** X3.  When the controller is not running and [start] returns, it has
    spawned one child, the next program to be launched, with the caller's
    variables laid over the daemon's environment.  The info it returns
    and keeps names that child, the requested port and the time of the
    call; the controller holds the child; and [start] returns at the first
    of its polls, 100 ms apart and less than 15 s after the call, at which
    the port accepts a connection. *)
Theorem start_spawn_success (env : gmap string string) (pt : Z) (st st' : state)
    (r : option ProxyProcessInfo) :
  is_running st = false ->
  start env pt st = (Ret r, st') ->
  let h := next_pid (os st) in
  exists sc rest n p,
    launches (os st) = sc :: rest /\ launches (os st') = rest /\
    r = Some {| pid := h; port := pt; started_at := now (os st) |} /\
    self st' = {| _proc := Some h; _info := r |} /\
    procs (os st') = <[h := p]> (procs (os st)) /\
    p_script p = sc /\
    (forall k, p_env p !! k = match env !! k with
                              | Some v => Some v
                              | None => environ (os st) !! k
                              end) /\
    now (os st') = (now (os st) + 100 * n)%N /\ (100 * n < 15000)%N /\
    accepted pt st' = true.
Proof. apply start_success_shape. Qed.

Lemma start_spawn_success_witness :
  let st := boot 1000 ∅ 4000 [obedient] in
  let st' := snd (start {["PORT" := "3000"]} 3000 st) in
  exists sc rest n p,
    launches (os st) = sc :: rest /\ launches (os st') = rest /\
    Some {| pid := 4000; port := 3000; started_at := 1000 |} =
      Some {| pid := 4000; port := 3000; started_at := 1000 |} /\
    self st' = {| _proc := Some 4000%Z;
                  _info := Some {| pid := 4000; port := 3000; started_at := 1000 |} |} /\
    procs (os st') = <[4000%Z := p]> (procs (os st)) /\
    p_script p = sc /\
    (forall k, p_env p !! k = match ({["PORT" := "3000"]} : gmap string string) !! k with
                              | Some v => Some v
                              | None => environ (os st) !! k
                              end) /\
    now (os st') = (now (os st) + 100 * n)%N /\ (100 * n < 15000)%N /\
    accepted 3000 st' = true.
Proof.
  intros st st'.
  apply (start_spawn_success {["PORT" := "3000"]} 3000 st st'
           (Some {| pid := 4000; port := 3000; started_at := 1000 |})).
  - vm_compute. reflexivity.
  - vm_compute. reflexivity.
Defined.

Lemma start_tail_facts (h : Z) (st2 : state) :
  let st3 := snd (try_except (terminate h) (fun _ => mret tt) st2) in
  self st3 = self st2 /\
  now (os st3) = now (os st2) /\
  environ (os st3) = environ (os st2) /\
  forall h', h' <> h -> procs (os st3) !! h' = procs (os st2) !! h'.
Proof.
  pose proof (send_signal_instant cs_term_raises cs_term_exit_after h st2) as Ht.
  pose proof (send_signal_touches cs_term_raises cs_term_exit_after h st2)
    as (_ & He & Hp).
  pose proof (send_signal_settles cs_term_raises cs_term_exit_after h st2) as [Hs _].
  fold terminate in Ht, He, Hp, Hs. py_unfold.
  destruct (terminate h st2) as [[[]|e] st3]; cbn [snd] in *; done.
Qed.

(** X4.  When the controller is not running and [start] raises, either
    no program could be spawned, and nothing has changed, or the startup
    failed: then all 150 polls, 100 ms apart, were refused, [start] raises
    exactly 15 s after the call, the controller holds the child it
    spawned, and no other child, nor the environment, has been touched. *)
Theorem start_failure (env : gmap string string) (pt : Z) (st st' : state) (e : exn) :
  is_running st = false ->
  start env pt st = (Raise e, st') ->
  (e = OSError /\ launches (os st) = [] /\ st' = st) \/
  (e = start_failed /\
   now (os st') = (now (os st) + 15000)%N /\
   _proc (self st') = Some (next_pid (os st)) /\
   (forall k, (k < 150)%N ->
      accepted pt (at_time (now (os st) + 100 * k) (spawned env st)) = false) /\
   touches_only (next_pid (os st)) st st').
Proof.
  intros Hr Hs.
  destruct (launches (os st)) as [|sc rest] eqn:Hl.
  { rewrite start_no_program in Hs by done. injection Hs as <- <-. by left. }
  right. rewrite (start_spawns _ _ _ sc rest) in Hs by done. cbn zeta in Hs.
  destruct (_wait_for_port_run pt 15000 (spawned env st)) as (b & n & Hrun & Hbefore & Hend).
  rewrite Hrun in Hs. clear Hrun. destruct b; [discriminate|].
  assert (n = 150%N) as ->.
  { destruct (decide (n = 0%N)) as [->|Hn0]; [lia|].
    destruct (Hbefore (N.pred n)) as [Hb _]; lia. }
  pose proof (spawned_eq env st sc rest Hl) as Hsp.
  remember (spawned env st) as sp eqn:Esp. clear Esp.
  remember (at_time (now (os sp) + 100 * 150) sp) as st2 eqn:Est2.
  destruct (start_tail_facts (next_pid (os st)) st2) as (Hself & Hnow & Henv & Hothers).
  injection Hs as <- <-.
  assert (now (os st2) = (now (os st) + 15000)%N) as Hn2 by (subst st2 sp; cbn; lia).
  split; [done|]. split; [by rewrite Hnow|].
  split; [rewrite Hself; by subst st2 sp|].
  split.
  - intros k Hk. destruct (Hbefore k Hk) as [_ Hk']. by subst sp.
  - split; [rewrite Hnow, Hn2; lia|].
    split; [rewrite Henv; by subst st2 sp|].
    intros h' Hne. rewrite Hothers by done. subst st2 sp. cbn.
    by rewrite lookup_insert_ne.
Qed.

Lemma start_failure_witness :
  let st := boot 1000 ∅ 4000 [mute] in
  let st' := snd (start ∅ 3000 st) in
  (start_failed = OSError /\ launches (os st) = [] /\ st' = st) \/
  (start_failed = start_failed /\
   now (os st') = (now (os st) + 15000)%N /\
   _proc (self st') = Some (next_pid (os st)) /\
   (forall k, (k < 150)%N ->
      accepted 3000 (at_time (now (os st) + 100 * k) (spawned ∅ st)) = false) /\
   touches_only (next_pid (os st)) st st').
Proof.
  intros st st'. apply (start_failure ∅ 3000 st st' start_failed).
  - vm_compute. reflexivity.
  - vm_compute. reflexivity.
Defined.

Lemma _wait_for_port_polls_witness :
  let st := spawned ∅ (boot 1000 ∅ 4000 [obedient]) in
  exists (b : bool) (n : N),
    _wait_for_port 3000 15000 st = (Ret b, at_time (now (os st) + 100 * n) st) /\
    (forall k, (k < n)%N ->
       (100 * k < 15000)%N /\
       accepted 3000 (at_time (now (os st) + 100 * k) st) = false) /\
    if b then (100 * n < 15000)%N /\
              accepted 3000 (at_time (now (os st) + 100 * n) st) = true
    else (15000 <= 100 * n)%N.
Proof.
  intros st. apply (_wait_for_port_polls 3000 15000 st).
Defined.

Lemma stop_bounded_and_idempotent_witness :
  let st := snd (start ∅ 3000 (boot 1000 ∅ 4000 [obedient])) in
  let st' := snd (stop st) in
  (now (os st) <= now (os st') <= now (os st) + 5000)%N /\
  environ (os st') = environ (os st) /\
  (forall h, _proc (self st) <> Some h ->
             procs (os st') !! h = procs (os st) !! h) /\
  stop st' = (Ret true, st').
Proof.
  intros st. apply (stop_bounded_and_idempotent st).
Defined.

Lemma accepted_inv (pt : Z) (st : state) :
  accepted pt st = true ->
  exists h p, procs (os st) !! h = Some p /\ accepts pt (now (os st)) p = true.
Proof.
  unfold accepted, connect, gets. cbn [fst].
  intros ([h p] & Hin & Hacc)%existsb_exists.
  apply list_elem_of_In, elem_of_map_to_list in Hin. by exists h, p.
Qed.



(** Without that condition [start] can vouch for a child that is gone.
    A first child keeps the port after a [stop] that could not confirm
    its exit; the next child finds the port taken and exits at once; the
    poll of [start] is answered by the first child, and [start] returns
    the info of the second, while [is_running] is false. *)
Example start_vouches_for_dead_child :
  let crashing := {| cs_listen := None; cs_crash_after := Some 0%N;
                     cs_term_raises := false; cs_term_exit_after := Some 0%N;
                     cs_kill_raises := false; cs_kill_exit_after := Some 0%N |} in
  let st0 := boot 1000 ∅ 4000 [untouchable; crashing] in
  let st1 := snd (start ∅ 3000 st0) in
  let st2 := snd (stop st1) in
  let t := now (os st2) in
  fst (stop st1) = Ret false /\
  start ∅ 3000 st2 =
    (Ret (Some {| pid := 4001; port := 3000; started_at := t |}),
     snd (start ∅ 3000 st2)) /\
  is_running (snd (start ∅ 3000 st2)) = false /\
  info (snd (start ∅ 3000 st2)) = None.
Proof. vm_compute. done. Qed.

End ProxyProofs.

(** ** Secret storage *)

Module StorageProofs.
Import Py PyProofs Storage.

#[local] Ltac py_unfold :=
  unfold mbind, M_bind, bind, mret, M_ret, ret, raise, gets, modify,
    try_except, try_finally_return in *.

Lemma may_write_read (f : filesys) (p : string) :
  may_write f p = true -> may_read f p = true.
Proof. unfold may_write, may_read. by destruct (fs_denied f !! p) as [[]|]. Qed.

Section EncryptedFile.
Context `{!Fernet} `{!Codec}.
Import EncryptedFileStorage.

(** [get_key] on a provider whose file exists: it returns what the
    content deserializes to, [None] if it does not, and never raises. *)
Lemma get_key_present (self : EncryptedFileStorage) (provider_id : string)
    (st : state) (f : file) :
  fs_files (fs st) !! _get_key_file self provider_id = Some f ->
  get_key self provider_id st =
  (Ret (if may_read (fs st) (_get_key_file self provider_id)
        then api_key_of (decode_record self (f_data f)) else VNone), st).
Proof.
  intros Hf. unfold get_key. py_unfold. unfold path_exists, read_file, gets.
  cbn zeta. rewrite Hf. rewrite bool_decide_eq_true_2 by (by eexists). cbn [orb negb].
  rewrite Hf.
  destruct (may_read (fs st) _); [|done].
  unfold _decrypt_data, new_fernet, decode_record, api_key_of. py_unfold.
  destruct (fernet_key_ok (_encryption_key self)); [|done].
  destruct (fernet_decrypt _ _) as [plain|]; [|done]. cbn.
  destruct (bytes_decode plain) as [text|]; [|done]. cbn.
  unfold loads. destruct (json_loads text) as [[]|]; done.
Qed.

Lemma get_key_absent (self : EncryptedFileStorage) (provider_id : string) (st : state) :
  fs_files (fs st) !! _get_key_file self provider_id = None ->
  get_key self provider_id st = (Ret VNone, st).
Proof.
  intros Hf. unfold get_key. py_unfold. unfold path_exists, read_file, gets.
  cbn zeta. rewrite Hf. rewrite bool_decide_eq_false_2 by (intros [? ?]; done). cbn [orb].
  destruct (bool_decide _) eqn:Hd; cbn [negb]; [|done]. by rewrite Hf, Hd.
Qed.

Lemma get_key_returns (self : EncryptedFileStorage) (provider_id : string) (st : state) :
  exists v, get_key self provider_id st = (Ret v, st).
Proof.
  destruct (fs_files (fs st) !! _get_key_file self provider_id) as [f|] eqn:Hf.
  - eexists. by apply get_key_present.
  - eexists. by apply get_key_absent.
Qed.



(** What a successful [store_key] leaves in the provider's file. *)
Lemma file_store_key_true (self : EncryptedFileStorage) (provider_id api_key : string)
    (metadata : option (gmap string string)) (st st' : state) :
  store_key self provider_id api_key metadata st = (Ret true, st') ->
  fernet_key_ok (_encryption_key self) = true /\
  may_read (fs st') (_get_key_file self provider_id) = true /\
  fs_files (fs st') !! _get_key_file self provider_id =
    Some {| f_data := fernet_encrypt (_encryption_key self) (entropy st)
                        (str_encode (json_dumps (record_value api_key metadata)));
            f_mode := 384 |}.
Proof.
  unfold store_key. py_unfold. unfold _encrypt_data, new_fernet, draw. py_unfold.
  cbn zeta. destruct (fernet_key_ok (_encryption_key self)); [|discriminate].
  unfold write_file, chmod. cbn [fs set_fs].
  destruct (may_write (fs st) _) eqn:Hw; [|discriminate]. cbn [negb orb].
  destruct (bool_decide _); [discriminate|].
  cbn [fs set_fs set_files fs_files fs_denied]. rewrite lookup_insert_eq.
  unfold may_write in *. cbn [fs set_fs set_files fs_files fs_denied].
  destruct (fs_denied (fs st) !! _) eqn:Hd; [discriminate|].
  intros [= <-]. split; [done|]. split.
  - unfold may_read. cbn. by rewrite Hd.
  - cbn. by rewrite lookup_insert_eq.
Qed.

(** After a successful [store_key], [get_key] returns the key that was
    stored and the file holds the record, metadata included. *)
Lemma file_store_then_get (self : EncryptedFileStorage) (provider_id api_key : string)
    (metadata : option (gmap string string)) (st st' : state) :
  store_key self provider_id api_key metadata st = (Ret true, st') ->
  get_key self provider_id st' = (Ret (VStr api_key), st') /\
  stored_metadata (EncryptedFile self) provider_id st' =
    Some (metadata_value (default ∅ metadata)).
Proof.
  intros (Hk & Hr & Hf)%file_store_key_true.
  assert (decode_record self
            (fernet_encrypt (_encryption_key self) (entropy st)
               (str_encode (json_dumps (record_value api_key metadata)))) =
          Some (record_value api_key metadata)) as Hd.
  { unfold decode_record. rewrite Hk, fernet_decrypt_encrypt by done. cbn.
    rewrite bytes_decode_encode. cbn. apply json_loads_dumps_record. }
  split.
  - rewrite (get_key_present _ _ _ _ Hf), Hr. cbn [f_data]. rewrite Hd.
    unfold api_key_of, record_value. by rewrite lookup_insert_eq.
  - unfold stored_metadata. rewrite Hf. cbn. rewrite Hd. cbn.
    unfold record_value. by rewrite lookup_insert_ne, lookup_insert_eq.
Qed.

(** [delete_key] on a provider without a file succeeds. *)
Lemma file_delete_key_never_stored (self : EncryptedFileStorage) (provider_id : string)
    (st : state) :
  fs_files (fs st) !! _get_key_file self provider_id = None ->
  _get_key_file self provider_id ∉ fs_dirs (fs st) ->
  delete_key self provider_id st = (Ret true, st).
Proof.
  intros Hf Hd. unfold delete_key. py_unfold. unfold path_exists, gets. cbn zeta.
  rewrite Hf. rewrite bool_decide_eq_false_2 by (intros [? ?]; done).
  by rewrite bool_decide_eq_false_2 by done.
Qed.

(** After a [delete_key] that succeeded, [get_key] finds nothing. *)
Lemma file_delete_then_get (self : EncryptedFileStorage) (provider_id : string)
    (st st' : state) :
  delete_key self provider_id st = (Ret true, st') ->
  get_key self provider_id st' = (Ret VNone, st').
Proof.
  unfold delete_key. py_unfold. unfold path_exists, gets, remove. cbn zeta.
  destruct (fs_files (fs st) !! _get_key_file self provider_id) as [f|] eqn:Hf.
  - rewrite bool_decide_eq_true_2 by (by eexists). cbn [orb]. rewrite Hf.
    destruct (may_write (fs st) _); [|discriminate].
    intros [= <-]. apply get_key_absent. cbn. apply lookup_delete_eq.
  - rewrite bool_decide_eq_false_2 by (intros [? ?]; done). cbn [orb].
    destruct (bool_decide _) eqn:Hd.
    + rewrite Hf, Hd. discriminate.
    + intros [= <-]. by apply get_key_absent.
Qed.

(** C3 (as amended).  With the storage directory in place and a key file
    in it, construction reads the key file: if the file cannot be read,
    construction raises [StorageError]; if it can, construction returns
    an instance with the content of the file as its key, whatever the
    content is. *)
Theorem init_reads_key_file (dir : string) (st : state) (f : file) :
  let d := expanduser (home st) dir in
  let kf := path_join d ".encryption_key" in
  d ∈ fs_dirs (fs st) ->
  fs_files (fs st) !! kf = Some f ->
  init dir st =
  if may_read (fs st) kf
  then (Ret {| storage_dir := d; key_file := kf; _encryption_key := f_data f |}, st)
  else (Raise (StorageError OSError), st).
Proof.
  intros d kf Hd Hf. unfold init. py_unfold. unfold mkdir. cbn zeta.
  fold d. rewrite bool_decide_eq_true_2 by done.
  unfold _get_or_create_key. py_unfold. unfold path_exists, gets, read_file.
  fold kf. rewrite Hf. rewrite bool_decide_eq_true_2 by (by eexists). cbn [orb].
  rewrite Hf. by destruct (may_read (fs st) kf).
Qed.

(** A key file that is missing and cannot be written fails the
    construction as well. *)
Lemma init_cannot_create_key (dir : string) (st : state) :
  let d := expanduser (home st) dir in
  let kf := path_join d ".encryption_key" in
  d ∈ fs_dirs (fs st) -> kf ∉ fs_dirs (fs st) ->
  fs_files (fs st) !! kf = None ->
  may_write (fs st) kf = false ->
  fst (init dir st) = Raise (StorageError OSError).
Proof.
  intros d kf Hd Hkd Hf Hw. unfold init. py_unfold. unfold mkdir. cbn zeta.
  fold d. rewrite bool_decide_eq_true_2 by done.
  unfold _get_or_create_key. py_unfold. unfold path_exists, gets, draw, write_file.
  fold kf. rewrite Hf. rewrite bool_decide_eq_false_2 by (intros [? ?]; done).
  rewrite bool_decide_eq_false_2 by done. cbn [orb fs]. by rewrite Hw.
Qed.

(** An instance whose key is no Fernet key stores nothing and finds
    nothing. *)
Lemma invalid_key_fails (self : EncryptedFileStorage) (provider_id api_key : string)
    (metadata : option (gmap string string)) (st : state) :
  fernet_key_ok (_encryption_key self) = false ->
  store_key self provider_id api_key metadata st = (Ret false, st) /\
  get_key self provider_id st = (Ret VNone, st).
Proof.
  intros Hk. split.
  - unfold store_key. py_unfold. unfold _encrypt_data, new_fernet. py_unfold.
    cbn zeta. by rewrite Hk.
  - destruct (fs_files (fs st) !! _get_key_file self provider_id) as [f|] eqn:Hf.
    + rewrite (get_key_present _ _ _ f Hf). unfold decode_record. rewrite Hk.
      by destruct (may_read _ _).
    + by apply get_key_absent.
Qed.

(** A key that construction generates itself is a Fernet key. *)
Lemma init_generates_valid_key (dir : string) (st st' : state)
    (self : EncryptedFileStorage) :
  let kf := path_join (expanduser (home st) dir) ".encryption_key" in
  fs_files (fs st) !! kf = None -> kf ∉ fs_dirs (fs st) ->
  init dir st = (Ret self, st') ->
  fernet_key_ok (_encryption_key self) = true.
Proof.
  intros kf Hf Hd. unfold init. py_unfold. cbn zeta. fold kf.
  assert (forall st1, fs_files (fs st1) = fs_files (fs st) ->
            kf ∉ fs_dirs (fs st1) ->
            forall key st2, _get_or_create_key kf st1 = (Ret key, st2) ->
            fernet_key_ok key = true) as Hg.
  { intros st1 Hfiles Hdirs key st2.
    unfold _get_or_create_key. py_unfold. unfold path_exists, gets, draw.
    rewrite Hfiles, Hf. rewrite bool_decide_eq_false_2 by (intros [? ?]; done).
    rewrite bool_decide_eq_false_2 by done. cbn [orb].
    destruct (write_file kf _ _) as [[[]|e] st3]; [|discriminate].
    destruct (chmod kf 384 st3) as [[[]|e] st4]; [|discriminate].
    intros [= <- _]. apply fernet_generate_key_ok. }
  unfold mkdir.
  destruct (bool_decide (expanduser (home st) dir ∈ fs_dirs (fs st))) eqn:Hx.
  - destruct (_get_or_create_key kf st) as [[key|e] st2] eqn:Hc; [|discriminate].
    intros [= <- _]. cbn. exact (Hg st eq_refl Hd key st2 Hc).
  - destruct (_ || _); [discriminate|].
    match goal with |- context [_get_or_create_key kf ?s] => set (st1 := s) end.
    destruct (_get_or_create_key kf st1) as [[key|e] st2] eqn:Hc; [|discriminate].
    intros [= <- _]. cbn. apply (Hg st1 eq_refl) with (st2 := st2); [|exact Hc].
    subst st1. cbn. intros [Hin|Hin]%elem_of_union; [|done].
    apply elem_of_singleton in Hin. unfold kf, path_join in Hin.
    revert Hin. generalize (expanduser (home st) dir). intros d Hin.
    induction d as [|c d IH]; [discriminate|]. injection Hin as Hin. by apply IH.
Qed.

End EncryptedFile.

(** *** The keyring back end *)

Section Keyring.
Context `{!Fernet} `{!Codec}.
Import KeyringStorage.

Lemma account_names_differ (provider_id : string) :
  _get_account_name provider_id <> metadata_account provider_id.
Proof.
  unfold _get_account_name, metadata_account.
  induction provider_id as [|c p IH]; [done|].
  intros [= Heq]. by apply IH.
Qed.

Lemma keyring_get_key_eq (self : KeyringStorage) (provider_id : string) (st : state) :
  get_key self provider_id st =
  (Ret (if kr_available (keyring st)
        then from_option VStr VNone
               (kr_entries (keyring st) !! (service_name self, _get_account_name provider_id))
        else VNone), st).
Proof.
  unfold get_key. py_unfold. unfold get_password.
  by destruct (kr_available (keyring st)).
Qed.

Lemma delete_metadata_account (self : KeyringStorage) (provider_id : string)
    (st : state) :
  kr_available (keyring (snd (delete_metadata self provider_id st))) =
    kr_available (keyring st) /\
  kr_entries (keyring (snd (delete_metadata self provider_id st)))
    !! (service_name self, _get_account_name provider_id) =
  kr_entries (keyring st) !! (service_name self, _get_account_name provider_id).
Proof.
  unfold delete_metadata. py_unfold. unfold delete_password.
  destruct (kr_available (keyring st)) eqn:Ha; cbn; [|by rewrite Ha].
  destruct (kr_entries (keyring st) !! (_, metadata_account _)); cbn; [|by rewrite Ha].
  split; [done|]. apply lookup_delete_ne.
  intros [= Heq]. by apply (account_names_differ provider_id).
Qed.

Lemma keyring_delete_key_eq (self : KeyringStorage) (provider_id : string) (st : state) :
  delete_key self provider_id st =
  let st1 := snd (delete_metadata self provider_id st) in
  match delete_password (service_name self) (_get_account_name provider_id) st1 with
  | (Ret _, st2) => (Ret true, st2)
  | (Raise _, st2) => (Ret false, st2)
  end.
Proof.
  unfold delete_key, delete_metadata. py_unfold. cbn zeta.
  destruct (delete_password _ (metadata_account provider_id) st)
    as [[[]|e] st1] eqn:Hm; cbn [snd].
  - destruct (delete_password _ _ st1) as [[[]|e] st2]; reflexivity.
  - assert (e = KeyringError) as ->.
    { unfold delete_password in Hm.
      destruct (kr_available (keyring st)); [|congruence].
      destruct (kr_entries (keyring st) !! _); congruence. }
    cbn [snd]. destruct (delete_password _ _ st1) as [[[]|e] st2]; reflexivity.
Qed.

(** [delete_key] for a provider without an entry: the keyring refuses
    to delete what is not there, and [delete_key] reports a failure. *)
Lemma keyring_delete_key_never_stored (self : KeyringStorage) (provider_id : string)
    (st : state) :
  kr_available (keyring st) = true ->
  kr_entries (keyring st) !! (service_name self, _get_account_name provider_id) = None ->
  fst (delete_key self provider_id st) = Ret false.
Proof.
  intros Ha Hn. rewrite keyring_delete_key_eq. cbn zeta.
  destruct (delete_metadata_account self provider_id st) as [Ha' Hn'].
  unfold delete_password. rewrite Ha', Ha, Hn', Hn. done.
Qed.

(** After [delete_key], whether it succeeded or not, [get_key] finds
    nothing. *)
Lemma keyring_delete_then_get (self : KeyringStorage) (provider_id : string) (st : state) :
  fst (get_key self provider_id (snd (delete_key self provider_id st))) = Ret VNone.
Proof.
  rewrite keyring_get_key_eq, keyring_delete_key_eq. cbn zeta. cbn [fst].
  destruct (delete_metadata_account self provider_id st) as [Ha' Hn'].
  unfold delete_password.
  destruct (kr_available (keyring (snd (delete_metadata self provider_id st)))) eqn:Ha.
  - destruct (kr_entries _ !! _) eqn:Hn; cbn.
    + by rewrite Ha, lookup_delete_eq.
    + by rewrite Ha, Hn.
  - cbn. by rewrite Ha.
Qed.

(** After a successful [store_key], [get_key] returns the key that was
    stored, and metadata that was given and is not empty sits in the
    sibling entry. *)
Lemma keyring_store_then_get (self : KeyringStorage) (provider_id api_key : string)
    (metadata : option (gmap string string)) (st st' : state) :
  store_key self provider_id api_key metadata st = (Ret true, st') ->
  get_key self provider_id st' = (Ret (VStr api_key), st') /\
  (truthy metadata = true ->
   stored_metadata (Keyring self) provider_id st' =
     Some (metadata_value (default ∅ metadata))).
Proof.
  unfold store_key. py_unfold. unfold set_password. cbn zeta.
  destruct (kr_available (keyring st)) eqn:Ha.
  - destruct (truthy metadata); cbn; rewrite Ha; cbn; rewrite ?Ha; cbn; intros [= <-];
      (split; [rewrite keyring_get_key_eq; cbn; by rewrite Ha, lookup_insert_eq|]);
      [|done].
    intros _. unfold stored_metadata. cbn. rewrite Ha.
    rewrite lookup_insert_ne, lookup_insert_eq.
    + cbn. apply json_loads_dumps_metadata.
    + intros [= Heq]. by apply (account_names_differ provider_id).
  - destruct (truthy metadata); cbn; rewrite ?Ha; discriminate.
Qed.

End Keyring.

(** *** The interface and the selector *)

Section Selector.
Context `{!Fernet} `{!Codec}.

(** C4 (as amended).  On both back ends a [store_key] that returned true
    is followed by a [get_key] that returns the same key.  The metadata
    can be read back unchanged from the encrypted record, an absent one
    as the empty dictionary; from the keyring it can be read back
    unchanged when it was given and not empty. *)
Theorem store_then_get_roundtrip (self : SecretStorage) (provider_id api_key : string)
    (metadata : option (gmap string string)) (st st' : state) :
  store_key self provider_id api_key metadata st = (Ret true, st') ->
  get_key self provider_id st' = (Ret (VStr api_key), st') /\
  match self with
  | EncryptedFile _ =>
    stored_metadata self provider_id st' = Some (metadata_value (default ∅ metadata))
  | Keyring _ =>
    KeyringStorage.truthy metadata = true ->
    stored_metadata self provider_id st' = Some (metadata_value (default ∅ metadata))
  end.
Proof.
  destruct self as [s|s]; cbn [store_key get_key].
  - apply keyring_store_then_get.
  - apply file_store_then_get.
Qed.

Lemma probe_unavailable (st : state) :
  kr_available (keyring st) = false -> probe st = (Raise KeyringError, st).
Proof. intros Ha. unfold probe. py_unfold. unfold set_password. by rewrite Ha. Qed.

Lemma get_secret_storage_cached (prefer_keyring : bool) (st : state) (s : SecretStorage) :
  _storage_instance st = Some s ->
  get_secret_storage prefer_keyring st = (Ret (Some s), st).
Proof. intros Hs. unfold get_secret_storage. py_unfold. by rewrite Hs. Qed.

(** C7 (as amended).  When nothing is resolved yet and the probe of the
    credential store fails, a [get_secret_storage] that returns has
    constructed the encrypted-file back end and stored it in the global;
    from then on every call, whatever its [prefer_keyring] and whatever
    has happened to the keyring and the files, returns that instance
    and touches nothing. *)
Theorem probe_failure_selects_file (st st' : state) (r : option SecretStorage) :
  _storage_instance st = None ->
  (exists e, fst (probe st) = Raise e) ->
  get_secret_storage true st = (Ret r, st') ->
  (exists s, r = Some (EncryptedFile s)) /\
  _storage_instance st' = r /\
  (forall prefer_keyring st'',
     _storage_instance st'' = r ->
     get_secret_storage prefer_keyring st'' = (Ret r, st'')).
Proof.
  intros Hn [e He]. unfold get_secret_storage. py_unfold. rewrite Hn.
  destruct (probe st) as [[[]|e'] st1]; [discriminate|].
  unfold use_file_storage. py_unfold.
  destruct (EncryptedFileStorage.init _ st1) as [[s|e''] st2]; [|discriminate].
  cbn. intros [= <- <-]. split; [by exists s|]. split; [done|].
  intros b st'' Hs. by apply get_secret_storage_cached.
Qed.

End Selector.

(** *** The claims on concrete machines *)

Section Concrete.
Import Mini MiniProofs.

Definition ks : KeyringStorage := KeyringStorage_init SERVICE_NAME.

(** The encrypted-file store of a first run on the fresh machine, and the
    machine after that run. *)
Definition efs : EncryptedFileStorage :=
  {| storage_dir := "/home/u/.claude-throne";
     key_file := "/home/u/.claude-throne/.encryption_key";
     _encryption_key := generate_key 0 |}.

Definition installed : state :=
  snd (EncryptedFileStorage.init "~/.claude-throne" (fresh false)).

Example init_fresh :
  fst (EncryptedFileStorage.init "~/.claude-throne" (fresh false)) = Ret efs.
Proof. vm_compute. reflexivity. Qed.

(** C2 (the code departs from the claim).  On a working keyring without
    any entry, [delete_key] of the keyring back end returns false for a
    provider that was never stored: the keyring refuses to delete an
    entry that does not exist, which the code tolerates for the metadata
    entry only.  The encrypted-file back end returns true on the same
    machine.  On both, [get_key] is absent afterwards. *)
Theorem keyring_delete_never_stored_fails :
  KeyringStorage.delete_key ks "openai" (fresh true) = (Ret false, fresh true) /\
  EncryptedFileStorage.delete_key efs "openai" installed = (Ret true, installed) /\
  KeyringStorage.get_key ks "openai" (fresh true) = (Ret VNone, fresh true) /\
  EncryptedFileStorage.get_key efs "openai" installed = (Ret VNone, installed).
Proof. vm_compute. done. Qed.

(** C3, counterexample.  A key file that holds seven bytes of garbage
    is no Fernet key, yet construction succeeds and hands out an instance
    with that key; the instance then fails every [store_key]. *)
Lemma init_accepts_corrupted_key :
  let garbage := String.list_byte_of_string "garbage" in
  let st := with_key_file garbage None in
  let broken := {| storage_dir := "/home/u/.claude-throne";
                   key_file := "/home/u/.claude-throne/.encryption_key";
                   _encryption_key := garbage |} in
  EncryptedFileStorage.init "~/.claude-throne" st = (Ret broken, st) /\
  fernet_key_ok garbage = false /\
  fst (EncryptedFileStorage.store_key broken "openai" "sk-1" None st) = Ret false.
Proof. vm_compute. done. Qed.

Lemma init_reads_key_file_witness :
  EncryptedFileStorage.init "~/.claude-throne" (with_key_file [] (Some NoAccess)) =
  (Raise (StorageError OSError), with_key_file [] (Some NoAccess)).
Proof.
  apply (init_reads_key_file "~/.claude-throne" (with_key_file [] (Some NoAccess))
           {| f_data := []; f_mode := 384 |}).
  - vm_compute. reflexivity.
  - vm_compute. reflexivity.
Defined.

(** C4, counterexample.  A provider is stored in the keyring with
    metadata and stored again without: the second [store_key] returns
    true and leaves the metadata of the first in place. *)
Lemma keyring_keeps_old_metadata :
  let plan : gmap string string := {["plan" := "pro"]} in
  let st1 := snd (store_key (Keyring ks) "openai" "sk-1" (Some plan) (fresh true)) in
  let st2 := snd (store_key (Keyring ks) "openai" "sk-2" None st1) in
  fst (store_key (Keyring ks) "openai" "sk-2" None st1) = Ret true /\
  stored_metadata (Keyring ks) "openai" st2 = Some (metadata_value plan) /\
  metadata_value plan <> metadata_value ∅.
Proof.
  split; [vm_compute; reflexivity|]. split; [vm_compute; reflexivity|].
  intros Heq. vm_compute in Heq. discriminate Heq.
Qed.

Lemma store_then_get_roundtrip_witness :
  let plan : gmap string string := {["plan" := "pro"]} in
  let st' := snd (store_key (EncryptedFile efs) "openai" "sk-1" (Some plan) installed) in
  get_key (EncryptedFile efs) "openai" st' = (Ret (VStr "sk-1"), st') /\
  stored_metadata (EncryptedFile efs) "openai" st' = Some (metadata_value plan).
Proof.
  intros plan st'.
  apply (store_then_get_roundtrip (EncryptedFile efs) "openai" "sk-1"
           (Some plan) installed st').
  vm_compute. reflexivity.
Defined.

(** The file of a stored provider with a byte appended by accident. *)
Definition damaged : state :=
  let st := snd (store_key (EncryptedFile efs) "openai" "sk-1" None installed) in
  overwrite "/home/u/.claude-throne/openai.key" [Byte.x0a] st.



(** C7, counterexample.  The credential store is out of order and the
    key file cannot be read: [get_secret_storage] raises, nothing is
    resolved, and once the credential store works the next call probes
    again and resolves to the keyring. *)
Lemma probe_failure_without_file_backend :
  let st := with_key_file [] (Some NoAccess) in
  let st' := snd (get_secret_storage true st) in
  let later := set_keyring {| kr_available := true; kr_entries := ∅ |} st' in
  (exists e, fst (probe st) = Raise e) /\
  fst (get_secret_storage true st) = Raise (StorageError OSError) /\
  _storage_instance st' = None /\
  fst (get_secret_storage true later) = Ret (Some (Keyring ks)).
Proof.
  split; [by exists KeyringError|]. vm_compute. done.
Qed.

Lemma probe_failure_selects_file_witness :
  let st' := snd (get_secret_storage true (fresh false)) in
  let later := set_keyring {| kr_available := true; kr_entries := ∅ |} st' in
  (exists s, Some (EncryptedFile efs) = Some (EncryptedFile s)) /\
  _storage_instance st' = Some (EncryptedFile efs) /\
  (forall prefer_keyring st'',
     _storage_instance st'' = Some (EncryptedFile efs) ->
     get_secret_storage prefer_keyring st'' = (Ret (Some (EncryptedFile efs)), st'')).
Proof.
  apply (probe_failure_selects_file (fresh false)).
  - reflexivity.
  - exists KeyringError. vm_compute. reflexivity.
  - vm_compute. reflexivity.
Defined.

End Concrete.

(** *** Names, suffixes and stems *)

Section Names.

Lemma append_cons (x : ascii) (a b : string) : String x a +:+ b = String x (a +:+ b).
Proof. reflexivity. Qed.

Lemma append_assoc (a b c : string) : (a +:+ b) +:+ c = a +:+ (b +:+ c).
Proof. induction a as [|x a IH]; [done|]. rewrite !append_cons. by rewrite IH. Qed.

Lemma append_length (a b : string) :
  String.length (a +:+ b) = String.length a + String.length b.
Proof. induction a as [|x a IH]; [done|]. rewrite append_cons. cbn. by rewrite IH. Qed.

Lemma append_inj_l (a b c : string) : a +:+ c = b +:+ c -> a = b.
Proof.
  revert b. induction a as [|x a IH]; intros [|y b] Heq; [done| | |].
  - apply (f_equal String.length) in Heq. rewrite !append_length in Heq.
    cbn in Heq. lia.
  - apply (f_equal String.length) in Heq. rewrite !append_length in Heq.
    cbn in Heq. lia.
  - rewrite !append_cons in Heq. injection Heq as -> Heq. f_equal. by apply IH.
Qed.

Lemma strip_prefix_app (pre s : string) : strip_prefix pre (pre +:+ s) = Some s.
Proof.
  induction pre as [|c pre IH]; [by destruct s|].
  rewrite append_cons. cbn. by rewrite bool_decide_eq_true_2.
Qed.

Lemma strip_prefix_Some (pre s r : string) :
  strip_prefix pre s = Some r -> s = pre +:+ r.
Proof.
  revert s. induction pre as [|c pre IH]; intros s Hs.
  - destruct s; cbn in Hs; by injection Hs as <-.
  - destruct s as [|d s]; [done|]. cbn in Hs.
    destruct (bool_decide_reflect (c = d)) as [->|]; [|done].
    rewrite append_cons. f_equal. by apply IH.
Qed.

Lemma has_char_app (c : ascii) (a b : string) :
  has_char c (a +:+ b) = has_char c a || has_char c b.
Proof.
  induction a as [|x a IH]; [done|]. rewrite append_cons. cbn. rewrite IH.
  by rewrite orb_assoc.
Qed.

Lemma entry_name_Some (dir path name : string) :
  entry_name dir path = Some name <->
  path = path_join dir name /\ has_char "/" name = false /\ name <> "".
Proof.
  unfold entry_name, path_join. split.
  - destruct (strip_prefix _ path) as [r|] eqn:Hr; [|done].
    apply strip_prefix_Some in Hr. rewrite append_assoc in Hr.
    destruct (has_char "/" r) eqn:Hc; [done|].
    destruct (bool_decide_reflect (r = "")) as [|Hne]; [done|].
    cbn. by intros [= <-].
  - intros (-> & Hc & Hne). rewrite <- append_assoc, strip_prefix_app, Hc.
    by rewrite bool_decide_eq_false_2.
Qed.

Lemma elem_of_dir_entries (dir name : string) (f : filesys) :
  name ∈ dir_entries dir f <->
  has_char "/" name = false /\ name <> "" /\
  (is_Some (fs_files f !! path_join dir name) \/ path_join dir name ∈ fs_dirs f).
Proof.
  unfold dir_entries. rewrite list_elem_of_omap. split.
  - intros (path & Hin & (-> & Hc & Hne)%entry_name_Some).
    split; [done|]. split; [done|].
    apply elem_of_app in Hin as [Hin|Hin].
    + left. apply list_elem_of_fmap in Hin as ([path x] & -> & Hin).
      apply elem_of_map_to_list in Hin. by exists x.
    + right. by apply elem_of_elements in Hin.
  - intros (Hc & Hne & Hex). exists (path_join dir name). split.
    + apply elem_of_app. destruct Hex as [[x Hx]|Hd].
      * left. apply list_elem_of_fmap. exists (path_join dir name, x).
        split; [done|]. by apply elem_of_map_to_list.
      * right. by apply elem_of_elements.
    + by apply entry_name_Some.
Qed.

Lemma ends_with_app (suffix p : string) : ends_with suffix (p +:+ suffix) = true.
Proof.
  induction p as [|c p IH].
  - change ("" +:+ suffix) with suffix.
    destruct suffix; cbn; by rewrite bool_decide_eq_true_2.
  - rewrite append_cons. cbn. rewrite IH. apply orb_true_r.
Qed.

Lemma ends_with_true (suffix name : string) :
  ends_with suffix name = true -> exists p, name = p +:+ suffix.
Proof.
  induction name as [|c name IH].
  - cbn. rewrite orb_false_r. intros <-%bool_decide_eq_true. by exists "".
  - cbn. intros [<-%bool_decide_eq_true|Hrec]%orb_true_iff.
    + by exists "".
    + destruct (IH Hrec) as [p ->]. by exists (String c p).
Qed.

Lemma rfind_dot_app_key (p : string) :
  rfind_dot (p +:+ ".key") = Some (String.length p).
Proof.
  induction p as [|c p IH]; [done|]. rewrite append_cons. cbn. by rewrite IH.
Qed.

Lemma substring_app (p s : string) :
  String.substring 0 (String.length p) (p +:+ s) = p.
Proof.
  induction p as [|c p IH]; [by destruct s|]. rewrite append_cons. cbn. by rewrite IH.
Qed.

(** The stem of a key file name is the provider id, except for the
    provider with the empty id, whose file [".key"] is its own stem. *)
Lemma stem_key (p : string) :
  stem (p +:+ ".key") = if bool_decide (p = "") then ".key" else p.
Proof.
  unfold stem. rewrite rfind_dot_app_key, append_length. cbn [String.length].
  destruct p as [|c p]; [done|].
  rewrite bool_decide_eq_true_2 by (cbn; lia).
  rewrite bool_decide_eq_false_2 by done. apply substring_app.
Qed.

End Names.

(** *** Listing the providers of the encrypted-file store *)

Section Listing.
Context `{!Fernet} `{!Codec}.
Import EncryptedFileStorage.

Lemma has_key_true (self : EncryptedFileStorage) (provider_id : string) (st : state) :
  has_key self provider_id st = (Ret true, st) <->
  is_Some (fs_files (fs st) !! _get_key_file self provider_id) \/
  _get_key_file self provider_id ∈ fs_dirs (fs st).
Proof.
  unfold has_key, path_exists, gets. split.
  - intros [= Hb]. apply orb_true_iff in Hb as [Hb|Hb].
    + left. by apply bool_decide_eq_true in Hb.
    + right. by apply bool_decide_eq_true in Hb.
  - intros [Hf|Hd].
    + by rewrite (bool_decide_eq_true_2 _ Hf).
    + rewrite (bool_decide_eq_true_2 _ Hd). by rewrite orb_true_r.
Qed.

Lemma list_providers_eq (self : EncryptedFileStorage) (st : state) :
  list_providers self st =
  (Ret (stem <$> filter (fun name => ends_with ".key" name = true)
                   (dir_entries (storage_dir self) (fs st))), st).
Proof. reflexivity. Qed.

Lemma listed_of_has_key (self : EncryptedFileStorage) (provider_id : string)
    (st : state) (l : list string) :
  has_char "/" provider_id = false -> provider_id <> "" ->
  list_providers self st = (Ret l, st) ->
  has_key self provider_id st = (Ret true, st) -> provider_id ∈ l.
Proof.
  intros Hslash Hne. rewrite list_providers_eq. intros [= <-] Hk%has_key_true.
  apply list_elem_of_fmap. exists (provider_id +:+ ".key"). split.
  - rewrite stem_key. by rewrite bool_decide_eq_false_2.
  - apply list_elem_of_filter. split; [apply ends_with_app|].
    apply elem_of_dir_entries. split.
    + rewrite has_char_app, Hslash. done.
    + split; [|exact Hk]. by destruct provider_id.
Qed.

Lemma has_key_of_listed (self : EncryptedFileStorage) (x : string)
    (st : state) (l : list string) :
  list_providers self st = (Ret l, st) -> x ∈ l ->
  has_key self x st = (Ret true, st) \/
  (x = ".key" /\ has_key self "" st = (Ret true, st)).
Proof.
  rewrite list_providers_eq. intros [= <-] Hin.
  apply list_elem_of_fmap in Hin as (name & -> & Hin).
  apply list_elem_of_filter in Hin as [Hend Hin].
  apply ends_with_true in Hend as [q ->].
  apply elem_of_dir_entries in Hin as (_ & _ & Hex).
  rewrite stem_key. destruct (bool_decide_reflect (q = "")) as [->|Hq].
  - right. split; [done|]. by apply has_key_true.
  - left. by apply has_key_true.
Qed.

(** X5.  [list_providers] of the encrypted-file store never raises and
    changes nothing, and it agrees with [has_key]: a provider whose id is
    a plain, non-empty file name is listed whenever [has_key] holds for
    it, and every id that is listed has its key file, with one exception:
    the file [".key"] of the provider with the empty id is listed under
    the name [".key"]. *)
Theorem list_providers_agrees_with_has_key (self : EncryptedFileStorage) (st : state) :
  exists l,
    list_providers self st = (Ret l, st) /\
    (forall p, has_char "/" p = false -> p <> "" ->
               has_key self p st = (Ret true, st) -> p ∈ l) /\
    (forall x, x ∈ l ->
               has_key self x st = (Ret true, st) \/
               (x = ".key" /\ has_key self "" st = (Ret true, st))).
Proof.
  eexists. split; [apply list_providers_eq|]. split.
  - intros p Hs Hne. by apply listed_of_has_key.
  - intros x. by apply has_key_of_listed.
Qed.

Lemma delete_key_true_gone (self : EncryptedFileStorage) (provider_id : string)
    (st st' : state) :
  _get_key_file self provider_id ∉ fs_dirs (fs st) ->
  delete_key self provider_id st = (Ret true, st') ->
  has_key self provider_id st' = (Ret false, st').
Proof.
  intros Hd. unfold delete_key, has_key. py_unfold. unfold path_exists, gets, remove.
  cbn zeta. rewrite (bool_decide_eq_false_2 _ Hd), orb_false_r.
  destruct (fs_files (fs st) !! _get_key_file self provider_id) as [f|] eqn:Hf.
  - rewrite bool_decide_eq_true_2 by (by eexists). rewrite Hf.
    destruct (may_write (fs st) _); [|discriminate].
    intros [= <-]. cbn. rewrite lookup_delete_eq.
    rewrite bool_decide_eq_false_2 by (intros [? ?]; done).
    by rewrite (bool_decide_eq_false_2 _ Hd).
  - rewrite bool_decide_eq_false_2 by (intros [? ?]; done).
    intros [= <-]. rewrite Hf.
    rewrite bool_decide_eq_false_2 by (intros [? ?]; done).
    by rewrite (bool_decide_eq_false_2 _ Hd).
Qed.

(** X6.  The listing follows the store.  For a provider whose id is a
    plain, non-empty file name: after a [store_key] that returned true
    the provider is listed; and, if its id is not [".key"] and no
    directory has the name of its key file, after a [delete_key] that
    returned true it is not listed any more. *)
Theorem list_providers_follows_store_and_delete (self : EncryptedFileStorage)
    (provider_id api_key : string) (metadata : option (gmap string string))
    (st st' : state) :
  has_char "/" provider_id = false -> provider_id <> "" ->
  (store_key self provider_id api_key metadata st = (Ret true, st') ->
   exists l, list_providers self st' = (Ret l, st') /\ provider_id ∈ l) /\
  (provider_id <> ".key" ->
   _get_key_file self provider_id ∉ fs_dirs (fs st) ->
   delete_key self provider_id st = (Ret true, st') ->
   exists l, list_providers self st' = (Ret l, st') /\ provider_id ∉ l).
Proof.
  intros Hslash Hne. split.
  - intros (_ & _ & Hf)%file_store_key_true.
    eexists. split; [apply list_providers_eq|].
    apply (listed_of_has_key self provider_id st'); [done..|apply list_providers_eq|].
    apply has_key_true. left. by eexists.
  - intros Hk Hd Hdel. apply delete_key_true_gone in Hdel; [|done].
    eexists. split; [apply list_providers_eq|]. intros Hin.
    destruct (has_key_of_listed self provider_id st' _ (list_providers_eq self st') Hin)
      as [Hhas|[Heq _]]; [|done].
    rewrite Hhas in Hdel. discriminate.
Qed.

End Listing.

(** *** Providers do not interfere *)

Section Isolation.
Context `{!Fernet} `{!Codec}.

Lemma last_char_app (a b : string) :
  b <> "" -> last_char (a +:+ b) = last_char b.
Proof.
  intros Hb. induction a as [|c a IH]; [done|].
  rewrite append_cons. cbn. rewrite IH.
  destruct (a +:+ b) eqn:Heq; [|done].
  destruct a; [by destruct b|done].
Qed.

Lemma key_account_not_metadata (p q : string) :
  KeyringStorage._get_account_name q <> KeyringStorage.metadata_account p.
Proof.
  unfold KeyringStorage._get_account_name, KeyringStorage.metadata_account.
  intros Heq. apply (f_equal last_char) in Heq.
  rewrite !last_char_app in Heq by done. discriminate.
Qed.

Lemma key_accounts_differ (p q : string) :
  p <> q -> KeyringStorage._get_account_name q <> KeyringStorage._get_account_name p.
Proof. intros Hne Heq. apply Hne. symmetry. by apply append_inj_l in Heq. Qed.

Lemma key_files_differ (self : EncryptedFileStorage) (p q : string) :
  p <> q ->
  EncryptedFileStorage._get_key_file self q <> EncryptedFileStorage._get_key_file self p.
Proof.
  unfold EncryptedFileStorage._get_key_file, path_join. intros Hne Heq.
  apply Hne. do 2 apply String.app_inj in Heq. symmetry. by apply append_inj_l in Heq.
Qed.

(** [get_key] of the file store reads the provider's own file only. *)
Lemma file_get_key_local (self : EncryptedFileStorage) (q : string) (st1 st2 : state) :
  fs_files (fs st1) !! EncryptedFileStorage._get_key_file self q =
    fs_files (fs st2) !! EncryptedFileStorage._get_key_file self q ->
  fs_denied (fs st1) = fs_denied (fs st2) ->
  fst (EncryptedFileStorage.get_key self q st1) =
  fst (EncryptedFileStorage.get_key self q st2).
Proof.
  intros Hf Hd.
  destruct (fs_files (fs st2) !! EncryptedFileStorage._get_key_file self q)
    as [f|] eqn:Hf2.
  - rewrite (get_key_present self q st1 f Hf), (get_key_present self q st2 f Hf2).
    unfold may_read. by rewrite Hd.
  - by rewrite (get_key_absent self q st1 Hf), (get_key_absent self q st2 Hf2).
Qed.

Lemma file_store_key_others (self : EncryptedFileStorage) (p api_key : string)
    (metadata : option (gmap string string)) (st : state) (path : string) :
  path <> EncryptedFileStorage._get_key_file self p ->
  let st' := snd (EncryptedFileStorage.store_key self p api_key metadata st) in
  fs_files (fs st') !! path = fs_files (fs st) !! path /\
  fs_denied (fs st') = fs_denied (fs st).
Proof.
  intros Hne. unfold EncryptedFileStorage.store_key. py_unfold.
  unfold EncryptedFileStorage._encrypt_data, EncryptedFileStorage.new_fernet, draw.
  py_unfold. cbn zeta.
  destruct (fernet_key_ok (_encryption_key self)); [|done].
  unfold write_file, chmod. cbn [fs set_fs].
  destruct (negb _ || _); [done|].
  cbn [fs set_fs set_files fs_files fs_denied]. rewrite lookup_insert_eq.
  destruct (may_write _ _); cbn; by rewrite ?lookup_insert_ne by done.
Qed.

Lemma file_delete_key_others (self : EncryptedFileStorage) (p : string)
    (st : state) (path : string) :
  path <> EncryptedFileStorage._get_key_file self p ->
  let st' := snd (EncryptedFileStorage.delete_key self p st) in
  fs_files (fs st') !! path = fs_files (fs st) !! path /\
  fs_denied (fs st') = fs_denied (fs st).
Proof.
  intros Hne. unfold EncryptedFileStorage.delete_key. py_unfold.
  unfold path_exists, gets, remove. cbn zeta.
  destruct (_ || _); [|done].
  destruct (fs_files (fs st) !! _) as [f|]; [|by destruct (bool_decide _)].
  destruct (may_write _ _); [|done]. cbn. by rewrite lookup_delete_ne.
Qed.

Lemma keyring_store_key_others (self : KeyringStorage) (p q api_key : string)
    (metadata : option (gmap string string)) (st : state) :
  p <> q ->
  let st' := snd (KeyringStorage.store_key self p api_key metadata st) in
  kr_available (keyring st') = kr_available (keyring st) /\
  kr_entries (keyring st') !! (service_name self, KeyringStorage._get_account_name q) =
  kr_entries (keyring st) !! (service_name self, KeyringStorage._get_account_name q).
Proof.
  intros Hne. unfold KeyringStorage.store_key. py_unfold. unfold set_password. cbn zeta.
  pose proof (key_account_not_metadata p q) as Hm.
  pose proof (key_accounts_differ p q Hne) as Hk.
  destruct (kr_available (keyring st)) eqn:Ha;
    destruct (KeyringStorage.truthy metadata); cbn; rewrite ?Ha; cbn; rewrite ?Ha; cbn;
    (split; [done|]); rewrite ?lookup_insert_ne by congruence; done.
Qed.

Lemma keyring_delete_key_others (self : KeyringStorage) (p q : string) (st : state) :
  p <> q ->
  let st' := snd (KeyringStorage.delete_key self p st) in
  kr_available (keyring st') = kr_available (keyring st) /\
  kr_entries (keyring st') !! (service_name self, KeyringStorage._get_account_name q) =
  kr_entries (keyring st) !! (service_name self, KeyringStorage._get_account_name q).
Proof.
  intros Hne. cbn zeta. rewrite keyring_delete_key_eq. cbn zeta.
  pose proof (key_account_not_metadata p q) as Hm.
  pose proof (key_accounts_differ p q Hne) as Hk.
  assert (kr_available (keyring (snd (KeyringStorage.delete_metadata self p st))) =
            kr_available (keyring st) /\
          kr_entries (keyring (snd (KeyringStorage.delete_metadata self p st)))
            !! (service_name self, KeyringStorage._get_account_name q) =
          kr_entries (keyring st)
            !! (service_name self, KeyringStorage._get_account_name q)) as [Ha1 He1].
  { unfold KeyringStorage.delete_metadata. py_unfold. unfold delete_password.
    destruct (kr_available (keyring st)) eqn:Ha; cbn; [|by rewrite Ha].
    destruct (kr_entries (keyring st) !! _); cbn; [|by rewrite Ha].
    split; [done|]. apply lookup_delete_ne. congruence. }
  unfold delete_password.
  destruct (kr_available (keyring (snd (KeyringStorage.delete_metadata self p st))))
    eqn:Ha; cbn; [|by rewrite Ha].
  destruct (kr_entries _ !! (_, KeyringStorage._get_account_name p)); cbn;
    [|by rewrite Ha].
  split; [congruence|]. rewrite lookup_delete_ne by congruence. done.
Qed.

(** X7.  Providers do not interfere: on either back end, storing or
    deleting the key of one provider leaves what [get_key] returns for
    every other provider as it was.  (Ids are file names without a
    slash.) *)
Theorem other_providers_untouched (self : SecretStorage) (p q api_key : string)
    (metadata : option (gmap string string)) (st : state) :
  p <> q -> has_char "/" p = false -> has_char "/" q = false ->
  fst (get_key self q (snd (store_key self p api_key metadata st))) =
    fst (get_key self q st) /\
  fst (get_key self q (snd (delete_key self p st))) = fst (get_key self q st).
Proof.
  intros Hne _ _. destruct self as [s|s]; cbn [get_key store_key delete_key].
  - rewrite !keyring_get_key_eq. cbn [fst].
    destruct (keyring_store_key_others s p q api_key metadata st Hne) as [-> ->].
    destruct (keyring_delete_key_others s p q st Hne) as [-> ->]. done.
  - pose proof (key_files_differ s p q Hne) as Hpath.
    destruct (file_store_key_others s p api_key metadata st _ Hpath) as [Hf Hd].
    destruct (file_delete_key_others s p st _ Hpath) as [Hf' Hd'].
    split; by apply file_get_key_local.
Qed.

End Isolation.

(** *** What the file store touches, and a restart *)

Section Restart.
Context `{!Fernet} `{!Codec}.
Import EncryptedFileStorage.

Lemma touches_file_refl (path : string) (st : state) : touches_file path st st.
Proof. by repeat split. Qed.

Lemma file_store_key_touches (self : EncryptedFileStorage) (p api_key : string)
    (metadata : option (gmap string string)) (st : state) :
  touches_file (_get_key_file self p) st (snd (store_key self p api_key metadata st)).
Proof.
  unfold store_key. py_unfold. unfold _encrypt_data, new_fernet, draw. py_unfold.
  cbn zeta. destruct (fernet_key_ok (_encryption_key self)); [|apply touches_file_refl].
  unfold write_file, chmod. cbn [fs set_fs].
  destruct (negb _ || _); [by repeat split|].
  cbn [fs set_fs set_files fs_files fs_denied]. rewrite lookup_insert_eq.
  destruct (may_write _ _); cbn; repeat split; try done;
    intros path' Hne; cbn; by rewrite ?lookup_insert_ne by done.
Qed.

Lemma file_delete_key_touches (self : EncryptedFileStorage) (p : string) (st : state) :
  touches_file (_get_key_file self p) st (snd (delete_key self p st)).
Proof.
  unfold delete_key. py_unfold. unfold path_exists, gets, remove. cbn zeta.
  destruct (_ || _); [|apply touches_file_refl].
  destruct (fs_files (fs st) !! _) as [f|];
    [|destruct (bool_decide _); apply touches_file_refl].
  destruct (may_write _ _); [|apply touches_file_refl].
  cbn. repeat split; try done. intros path' Hne. cbn. by rewrite lookup_delete_ne.
Qed.

(** X8.  The encrypted-file store works on one file at a time:
    [store_key] and [delete_key] of a provider leave the home directory,
    the keyring, the resolved back end, the directories, the permissions
    and every file other than the provider's own as they were, whether
    they succeed or not; [get_key], [has_key] and [list_providers]
    change nothing at all. *)
Theorem file_store_touches_one_file (self : EncryptedFileStorage) (p api_key : string)
    (metadata : option (gmap string string)) (st : state) :
  touches_file (_get_key_file self p) st (snd (store_key self p api_key metadata st)) /\
  touches_file (_get_key_file self p) st (snd (delete_key self p st)) /\
  snd (get_key self p st) = st /\
  snd (has_key self p st) = st /\
  snd (list_providers self st) = st.
Proof.
  split; [apply file_store_key_touches|]. split; [apply file_delete_key_touches|].
  split; [|done].
  destruct (fs_files (fs st) !! _get_key_file self p) as [f|] eqn:Hf.
  - by rewrite (get_key_present self p st f Hf).
  - by rewrite (get_key_absent self p st Hf).
Qed.

(** The key file is never the file of a provider. *)
Lemma provider_file_not_key_file (self : EncryptedFileStorage) (p : string) :
  key_file self = path_join (storage_dir self) ".encryption_key" ->
  key_file self <> _get_key_file self p.
Proof.
  intros -> Heq. unfold _get_key_file, path_join in Heq.
  do 2 apply String.app_inj in Heq.
  apply (f_equal (ends_with ".key")) in Heq. rewrite ends_with_app in Heq.
  vm_compute in Heq. discriminate Heq.
Qed.

Lemma holds_key_touches (dir : string) (self : EncryptedFileStorage) (path : string)
    (st st' : state) :
  key_file self <> path ->
  holds_key dir self st -> touches_file path st st' -> holds_key dir self st'.
Proof.
  intros Hne (Hd & Hk & Hin & f & Hf & Hdata & Hr) (Hh & _ & _ & Hdirs & Hden & Hfiles).
  repeat split; [by rewrite Hh|done|by rewrite Hdirs|].
  exists f. rewrite Hfiles by done. unfold may_read in *. rewrite Hden. done.
Qed.

Lemma holds_key_serve (dir : string) (self : EncryptedFileStorage) (r : request)
    (st : state) :
  holds_key dir self st -> holds_key dir self (serve self st r).
Proof.
  intros Hk. pose proof Hk as (_ & Hkf & _).
  destruct r as [p k md|p]; cbn [serve].
  - eapply holds_key_touches; [|done|apply file_store_key_touches].
    by apply provider_file_not_key_file.
  - eapply holds_key_touches; [|done|apply file_delete_key_touches].
    by apply provider_file_not_key_file.
Qed.

(** Construction in a directory that holds the key hands out the
    instance with that key and changes nothing. *)
Lemma init_holds_key (dir : string) (self : EncryptedFileStorage) (st : state) :
  holds_key dir self st -> init dir st = (Ret self, st).
Proof.
  intros (Hd & Hk & Hin & f & Hf & Hdata & Hr). destruct self as [d kf key].
  cbn in *. subst d kf key.
  unfold init. py_unfold. unfold mkdir. cbn zeta.
  rewrite bool_decide_eq_true_2 by done.
  unfold _get_or_create_key. py_unfold. unfold path_exists, gets, read_file.
  rewrite Hf. rewrite bool_decide_eq_true_2 by (by eexists). cbn [orb].
  by rewrite Hf, Hr.
Qed.

Lemma key_file_not_dir (d : string) : path_join d ".encryption_key" <> d.
Proof.
  unfold path_join. induction d as [|c d IH]; [discriminate|].
  intros Hin. injection Hin as Hin. by apply IH.
Qed.

(** What a construction that returns leaves behind. *)
Lemma init_post (dir : string) (st st' : state) (self : EncryptedFileStorage) :
  init dir st = (Ret self, st') -> holds_key dir self st'.
Proof.
  unfold init. py_unfold. cbn zeta.
  set (d := expanduser (home st) dir). set (kf := path_join d ".encryption_key").
  assert (forall st1 key st2, home st1 = home st -> d ∈ fs_dirs (fs st1) ->
            _get_or_create_key kf st1 = (Ret key, st2) ->
            holds_key dir {| storage_dir := d; key_file := kf; _encryption_key := key |}
              st2) as Hg.
  { intros st1 key st2 Hh Hin.
    unfold _get_or_create_key. py_unfold. unfold path_exists, gets, read_file.
    destruct (fs_files (fs st1) !! kf) as [f|] eqn:Hf.
    - rewrite bool_decide_eq_true_2 by (by eexists). cbn [orb]. rewrite Hf.
      destruct (may_read (fs st1) kf) eqn:Hr; [|discriminate].
      intros [= <- <-]. repeat split; [by rewrite Hh|done|]. by exists f.
    - rewrite bool_decide_eq_false_2 by (intros [? ?]; done). cbn [orb].
      destruct (bool_decide (kf ∈ fs_dirs (fs st1))) eqn:Hkd.
      + rewrite Hf, Hkd. discriminate.
      + unfold draw, write_file, chmod. cbn [fs set_fs]. rewrite Hkd, orb_false_r.
        destruct (may_write (fs st1) kf) eqn:Hw; [|discriminate]. cbn [negb].
        cbn [fs set_fs set_files fs_files fs_denied]. rewrite lookup_insert_eq.
        unfold may_write in *. cbn [fs set_fs set_files fs_files fs_denied].
        destruct (fs_denied (fs st1) !! kf) eqn:Hden; [discriminate|].
        intros [= <- <-]. repeat split; cbn; [by rewrite Hh|done|].
        eexists. rewrite lookup_insert_eq. split; [done|]. split; [done|].
        unfold may_read. cbn. by rewrite Hden. }
  unfold mkdir. fold d.
  destruct (bool_decide (d ∈ fs_dirs (fs st))) eqn:Hx.
  - apply bool_decide_eq_true in Hx.
    destruct (_get_or_create_key kf st) as [[key|e] st2] eqn:Hc; [|discriminate].
    intros [= <- <-]. by apply (Hg st).
  - destruct (_ || _); [discriminate|].
    match goal with |- context [_get_or_create_key kf ?s] => set (st1 := s) end.
    destruct (_get_or_create_key kf st1) as [[key|e] st2] eqn:Hc; [|discriminate].
    intros [= <- <-]. apply (Hg st1); [done| |done].
    subst st1. cbn. set_solver.
Qed.

(** X9.  A restart finds the store as it was left.  Once a construction
    for a directory has returned an instance, a new construction for the
    same directory, after any number of [store_key] and [delete_key]
    requests to that instance, returns the same instance, with the same
    key, and changes nothing. *)
Theorem init_again_same_instance (dir : string) (st st1 : state)
    (self : EncryptedFileStorage) (rs : list request) :
  init dir st = (Ret self, st1) ->
  let st2 := serve_all self rs st1 in
  init dir st2 = (Ret self, st2).
Proof.
  intros Hk%init_post st2. apply init_holds_key. subst st2. unfold serve_all.
  revert st1 Hk. induction rs as [|r rs IH]; intros st1 Hk; [done|].
  cbn [foldl]. apply IH. by apply holds_key_serve.
Qed.

(** X10.  The key of a first run.  When there is no key file yet, a
    construction that returns has drawn a fresh key from the random
    source, made it the key of the instance and written it to the key
    file with mode 0600; the storage directory exists afterwards, no
    other file has changed and the keyring is untouched. *)
Theorem init_creates_key_file (dir : string) (st st' : state)
    (self : EncryptedFileStorage) :
  let d := expanduser (home st) dir in
  let kf := path_join d ".encryption_key" in
  fs_files (fs st) !! kf = None -> kf ∉ fs_dirs (fs st) ->
  init dir st = (Ret self, st') ->
  self = {| storage_dir := d; key_file := kf;
            _encryption_key := fernet_generate_key (entropy st) |} /\
  fernet_key_ok (_encryption_key self) = true /\
  fs_files (fs st') =
    <[kf := {| f_data := fernet_generate_key (entropy st); f_mode := 384 |}]>
      (fs_files (fs st)) /\
  fs_dirs (fs st') = {[d]} ∪ fs_dirs (fs st) /\
  keyring st' = keyring st.
Proof.
  intros d kf Hf Hd. unfold init. py_unfold. cbn zeta. fold d kf.
  assert (forall st1, fs_files (fs st1) = fs_files (fs st) -> entropy st1 = entropy st ->
            kf ∉ fs_dirs (fs st1) ->
            forall key st2, _get_or_create_key kf st1 = (Ret key, st2) ->
            key = fernet_generate_key (entropy st) /\
            fs_files (fs st2) =
              <[kf := {| f_data := fernet_generate_key (entropy st); f_mode := 384 |}]>
                (fs_files (fs st)) /\
            fs_dirs (fs st2) = fs_dirs (fs st1) /\ keyring st2 = keyring st1) as Hg.
  { intros st1 Hfiles Hent Hdirs key st2.
    unfold _get_or_create_key. py_unfold. unfold path_exists, gets, draw.
    rewrite Hfiles, Hf. rewrite bool_decide_eq_false_2 by (intros [? ?]; done).
    rewrite bool_decide_eq_false_2 by done. cbn [orb].
    unfold write_file, chmod. cbn [fs set_fs].
    rewrite bool_decide_eq_false_2 by done. rewrite orb_false_r.
    destruct (may_write (fs st1) kf) eqn:Hw; [|discriminate]. cbn [negb].
    cbn [fs set_fs set_files fs_files fs_denied]. rewrite lookup_insert_eq.
    unfold may_write in *. cbn [fs set_fs set_files fs_files fs_denied]. rewrite Hw.
    intros [= <- <-]. cbn. rewrite Hent, Hfiles, Hf.
    by rewrite insert_insert_eq. }
  unfold mkdir.
  destruct (bool_decide (d ∈ fs_dirs (fs st))) eqn:Hx.
  - apply bool_decide_eq_true in Hx.
    destruct (_get_or_create_key kf st) as [[key|e] st2] eqn:Hc; [|discriminate].
    intros [= <- <-]. destruct (Hg st eq_refl eq_refl Hd key st2 Hc) as (-> & ? & ? & ?).
    repeat split; [apply fernet_generate_key_ok|done| |done].
    match goal with H : fs_dirs _ = _ |- _ => rewrite H end.
    symmetry. apply subseteq_union_1_L. by apply singleton_subseteq_l.
  - destruct (_ || _); [discriminate|].
    match goal with |- context [_get_or_create_key kf ?s] => set (st1 := s) end.
    destruct (_get_or_create_key kf st1) as [[key|e] st2] eqn:Hc; [|discriminate].
    intros [= <- <-].
    destruct (Hg st1 eq_refl eq_refl) with (key := key) (st2 := st2)
      as (-> & ? & ? & ?); [|done|].
    + subst st1. cbn. intros [Hin|Hin]%elem_of_union; [|done].
      apply elem_of_singleton in Hin. by apply key_file_not_dir in Hin.
    + repeat split; [apply fernet_generate_key_ok|done|done|done].
Qed.

End Restart.

(** *** More on the keyring back end and the selector *)

Section KeyringEffects.
Context `{!Fernet} `{!Codec}.
Import KeyringStorage.

Lemma set_entries_same (st : state) :
  set_keyring (set_entries (kr_entries (keyring st)) (keyring st)) st = st.
Proof. by destruct st as [? [? ?] ? ? ?]. Qed.

(** X11.  What [delete_key] of the keyring back end does.  Without a
    usable credential store it returns false and changes nothing.  With
    one, it removes the metadata entry and the key entry of the provider,
    leaves every other entry alone, and returns whether there was a key
    entry: a provider that has metadata but no key loses the metadata
    and gets false. *)
Theorem keyring_delete_key_effect (self : KeyringStorage) (provider_id : string)
    (st : state) :
  delete_key self provider_id st =
  if kr_available (keyring st) then
    (Ret (bool_decide (is_Some (kr_entries (keyring st)
                                  !! (service_name self, _get_account_name provider_id)))),
     set_keyring
       (set_entries
          (delete (service_name self, _get_account_name provider_id)
             (delete (service_name self, metadata_account provider_id)
                (kr_entries (keyring st))))
          (keyring st)) st)
  else (Ret false, st).
Proof.
  rewrite keyring_delete_key_eq. cbn zeta.
  unfold delete_metadata. py_unfold. unfold delete_password.
  destruct (kr_available (keyring st)) eqn:Ha; [|cbn; by rewrite Ha].
  assert ((service_name self, _get_account_name provider_id) <>
          (service_name self, metadata_account provider_id)) as Hne
    by (intros [= Heq]; by apply (account_names_differ provider_id)).
  destruct (kr_entries (keyring st) !! (service_name self, metadata_account provider_id))
    as [m|] eqn:Hm; cbn; rewrite Ha.
  - rewrite lookup_delete_ne by done.
    destruct (kr_entries (keyring st) !! (service_name self, _get_account_name provider_id))
      as [k|] eqn:Hk; cbn; [done|].
    rewrite (delete_id (delete _ _)); [done|]. by rewrite lookup_delete_ne.
  - rewrite (delete_id (kr_entries (keyring st))
               (service_name self, metadata_account provider_id)) by done.
    destruct (kr_entries (keyring st) !! (service_name self, _get_account_name provider_id))
      as [k|] eqn:Hk; cbn; [done|].
    by rewrite delete_id, set_entries_same.
Qed.

Lemma keyring_has_key_eq (self : KeyringStorage) (provider_id : string) (st : state) :
  has_key self provider_id st =
  (Ret (kr_available (keyring st) &&
        bool_decide (is_Some (kr_entries (keyring st)
                                !! (service_name self, _get_account_name provider_id)))),
   st).
Proof.
  unfold has_key. py_unfold. rewrite keyring_get_key_eq.
  destruct (kr_available (keyring st)); [|done].
  by destruct (kr_entries (keyring st) !! _) as [k|].
Qed.


Lemma init_keeps_keyring (dir : string) (st : state) :
  keyring (snd (EncryptedFileStorage.init dir st)) = keyring st.
Proof.
  unfold EncryptedFileStorage.init. py_unfold. unfold mkdir. cbn zeta.
  assert (forall kf st1, keyring (snd (EncryptedFileStorage._get_or_create_key kf st1)) =
                         keyring st1) as Hg.
  { intros kf st1. unfold EncryptedFileStorage._get_or_create_key. py_unfold.
    unfold path_exists, gets, read_file, draw, write_file, chmod.
    destruct (_ || _).
    - destruct (fs_files (fs st1) !! kf); [by destruct (may_read _ _)|].
      by destruct (bool_decide _).
    - cbn [fs set_fs]. destruct (negb _ || _); [done|].
      cbn [fs set_fs set_files fs_files fs_denied]. rewrite lookup_insert_eq.
      by destruct (may_write _ _). }
  destruct (bool_decide _).
  - specialize (Hg (path_join (expanduser (home st) dir) ".encryption_key") st).
    by destruct (EncryptedFileStorage._get_or_create_key _ st) as [[key|e] st2].
  - destruct (_ || _); [done|].
    match goal with |- context [EncryptedFileStorage._get_or_create_key ?kf ?s] =>
      specialize (Hg kf s);
      destruct (EncryptedFileStorage._get_or_create_key kf s) as [[key|e] st2]
    end; exact Hg.
Qed.

(** X13.  With a usable credential store and nothing resolved yet,
    [get_secret_storage] with [prefer_keyring] resolves to the keyring
    back end under the service name ["claude-throne"].  Its probe leaves
    no entry behind and no file is touched; what it removes is an entry
    that happened to exist under the probe's own service and account.
    No key of a provider is affected, and later calls return the same
    back end. *)
Theorem get_secret_storage_keyring (st : state) :
  _storage_instance st = None -> kr_available (keyring st) = true ->
  let storage := Keyring (KeyringStorage_init SERVICE_NAME) in
  let st' :=
    set_storage_instance (Some storage)
      (set_keyring (set_entries (delete ("claude-throne-test", "test-account")
                                   (kr_entries (keyring st))) (keyring st)) st) in
  get_secret_storage true st = (Ret (Some storage), st') /\
  (forall provider_id,
     fst (Storage.get_key storage provider_id st') =
     fst (Storage.get_key storage provider_id st)) /\
  (forall prefer_keyring,
     get_secret_storage prefer_keyring st' = (Ret (Some storage), st')).
Proof.
  intros Hn Ha storage st'. split; [|split].
  - unfold get_secret_storage. py_unfold. rewrite Hn.
    unfold probe. py_unfold. unfold set_password, delete_password. cbn zeta.
    rewrite Ha. cbn. rewrite Ha, lookup_insert_eq. cbn.
    by rewrite delete_insert_eq.
  - intros p. cbn [Storage.get_key storage]. rewrite !keyring_get_key_eq. cbn.
    by rewrite lookup_delete_ne.
  - intros b. by apply get_secret_storage_cached.
Qed.

(** X14.  Without [prefer_keyring] the credential store is not
    consulted: with nothing resolved yet, [get_secret_storage] leaves the
    keyring as it is, usable or not, and when it returns it has resolved
    to an encrypted-file back end whose key sits in a readable key file
    under ["~/.claude-throne"]. *)
Theorem get_secret_storage_file_only (st : state) :
  _storage_instance st = None ->
  keyring (snd (get_secret_storage false st)) = keyring st /\
  (forall r st', get_secret_storage false st = (Ret r, st') ->
     exists s, r = Some (EncryptedFile s) /\ _storage_instance st' = r /\
               holds_key "~/.claude-throne" s st').
Proof.
  intros Hn. unfold get_secret_storage. py_unfold. rewrite Hn.
  unfold use_file_storage. py_unfold.
  pose proof (init_keeps_keyring "~/.claude-throne" st) as Hk.
  destruct (EncryptedFileStorage.init "~/.claude-throne" st) as [[s|e] st1] eqn:Hi.
  - split; [exact Hk|]. cbn. intros r st' [= <- <-]. exists s.
    split; [done|]. split; [done|]. apply init_post in Hi.
    destruct Hi as (? & ? & ? & f & ? & ? & ?). repeat split; try done. by exists f.
  - split; [exact Hk|]. intros r st'. discriminate.
Qed.

End KeyringEffects.

(** *** The further properties on concrete machines *)

Section MoreConcrete.
Import Mini MiniProofs.

(** The machine after a first run that stored a key for ["openai"]. *)
Definition stocked : state :=
  snd (EncryptedFileStorage.store_key efs "openai" "sk-1" None installed).

Lemma list_providers_agrees_with_has_key_witness :
  exists l,
    EncryptedFileStorage.list_providers efs stocked = (Ret l, stocked) /\
    (forall p, has_char "/" p = false -> p <> "" ->
               EncryptedFileStorage.has_key efs p stocked = (Ret true, stocked) ->
               p ∈ l) /\
    (forall x, x ∈ l ->
               EncryptedFileStorage.has_key efs x stocked = (Ret true, stocked) \/
               (x = ".key" /\
                EncryptedFileStorage.has_key efs "" stocked = (Ret true, stocked))).
Proof. apply (list_providers_agrees_with_has_key efs stocked). Defined.

Lemma list_providers_follows_store_and_delete_witness :
  exists l,
    EncryptedFileStorage.list_providers efs stocked = (Ret l, stocked) /\ "openai" ∈ l.
Proof.
  apply (proj1 (list_providers_follows_store_and_delete efs "openai" "sk-1" None
                  installed stocked eq_refl ltac:(discriminate))).
  vm_compute. reflexivity.
Defined.

Lemma other_providers_untouched_witness :
  fst (get_key (EncryptedFile efs) "openai"
         (snd (store_key (EncryptedFile efs) "groq" "gsk-1" None stocked))) =
    fst (get_key (EncryptedFile efs) "openai" stocked) /\
  fst (get_key (EncryptedFile efs) "openai"
         (snd (delete_key (EncryptedFile efs) "groq" stocked))) =
    fst (get_key (EncryptedFile efs) "openai" stocked).
Proof.
  apply (other_providers_untouched (EncryptedFile efs) "groq" "openai" "gsk-1" None
           stocked).
  - discriminate.
  - reflexivity.
  - reflexivity.
Defined.

Lemma init_again_same_instance_witness :
  let st2 := serve_all efs [Store "openai" "sk-1" None; Delete "groq"] installed in
  EncryptedFileStorage.init "~/.claude-throne" st2 = (Ret efs, st2).
Proof.
  apply (init_again_same_instance "~/.claude-throne" (fresh false) installed efs).
  vm_compute. reflexivity.
Defined.

Lemma init_creates_key_file_witness :
  fs_files (fs installed) !! "/home/u/.claude-throne/.encryption_key" =
    Some {| f_data := generate_key 0; f_mode := 384 |} /\
  keyring installed = keyring (fresh false).
Proof.
  destruct (init_creates_key_file "~/.claude-throne" (fresh false) installed efs)
    as (_ & _ & Hfiles & _ & Hkeyring).
  - vm_compute. reflexivity.
  - intros Hin. vm_compute in Hin. discriminate Hin.
  - vm_compute. reflexivity.
  - split; [|exact Hkeyring]. rewrite Hfiles. apply lookup_insert_eq.
Defined.


Lemma get_secret_storage_keyring_witness :
  fst (get_secret_storage true (fresh true)) = Ret (Some (Keyring ks)).
Proof.
  exact (f_equal fst (proj1 (get_secret_storage_keyring (fresh true) eq_refl eq_refl))).
Defined.

Lemma get_secret_storage_file_only_witness :
  keyring (snd (get_secret_storage false (fresh true))) = keyring (fresh true).
Proof. apply (proj1 (get_secret_storage_file_only (fresh true) eq_refl)). Defined.

End MoreConcrete.

End StorageProofs.

(** ** The provider adapters *)

Module ProvidersProofs.
Import Storage Providers.

Lemma on_exception_failed (timeout_message : string) (e : exception) :
  exists message, on_exception timeout_message e = failed message.
Proof. destruct e; by eexists. Qed.

(** *** The hosted providers *)

Lemma validate_hosted_eq (path unauthorized rate_limited : string)
    (self : ProviderAdapter) (api_key : string) (net : network) :
  let r := (base_url self +:+ path, get_headers self api_key) in
  let v := fst (validate_hosted path unauthorized rate_limited self api_key net) in
  sent (snd (validate_hosted path unauthorized rate_limited self api_key net)) =
    sent net ++ [r] /\
  ((exists response count,
      server net (sent net) r = inr response /\
      status_code response = 200%Z /\ model_count response = inr count /\
      v = ok count) \/
   ((forall response count,
       server net (sent net) r = inr response ->
       status_code response = 200%Z -> model_count response <> inr count) /\
    exists message, v = failed message)).
Proof.
  cbn zeta. unfold validate_hosted, client_get. cbn [fst snd sent].
  split; [done|].
  destruct (server net (sent net) _) as [e|response] eqn:Ha.
  - right. split; [done|]. apply on_exception_failed.
  - destruct (bool_decide_reflect (status_code response = 200%Z)) as [H200|H200].
    + destruct (model_count response) as [e|count] eqn:Hc.
      * right. split; [|apply on_exception_failed].
        intros ? ? [= <-] _. by rewrite Hc.
      * left. by exists response, count.
    + right. split; [by intros ? ? [= <-]|].
      repeat destruct (bool_decide _); by eexists.
Qed.


(** *** The custom provider *)

Lemma answer_0 (net : network) (r : request) (rs : list request) :
  answer net (r :: rs) 0 = Some (server net (sent net) r).
Proof. unfold answer. cbn. by rewrite app_nil_r. Qed.

Lemma answer_S (net : network) (r : request) (rs : list request) (i : nat) :
  answer net (r :: rs) (S i) =
  answer {| sent := sent net ++ [r]; server := server net |} rs i.
Proof. unfold answer. cbn. by rewrite <- app_assoc. Qed.

Lemma model_count_error (response : Response) (e : exception) :
  model_count response = inl e -> is_RequestError e = false.
Proof.
  unfold model_count. destruct (json response) as [msg|data]; [by intros [= <-]|].
  destruct data as [| | | | |d]; try by intros [= <-].
  destruct (default _ _); (by intros [= <-]) || discriminate.
Qed.

(** An answer that is not passed over settles the attempt, whatever the
    endpoint and whatever was sent before. *)
Lemma try_endpoints_settled (self : ProviderAdapter) (api_key : string)
    (endpoint : string) (rest : list string) (net : network) (a : exception + Response) :
  server net (sent net) (endpoint, get_headers self api_key) = a ->
  passed_over a = false ->
  fst (try_endpoints self api_key (endpoint :: rest) net) =
  fst (try_endpoints self api_key [""] (always a)).
Proof.
  intros Ha Hp. cbn [try_endpoints]. unfold client_get, always. cbn [fst snd sent server].
  rewrite Ha. destruct a as [e|response]; cbn [passed_over] in Hp.
  - by rewrite Hp.
  - destruct (bool_decide (status_code response = 200%Z)) eqn:H200.
    + apply bool_decide_eq_true in H200.
      destruct (model_count response) as [e|count] eqn:Hc; [|done].
      by rewrite (model_count_error _ _ Hc).
    + destruct (bool_decide (status_code response = 401%Z)); [done|]. by rewrite Hp.
Qed.

(** What leaves the loop is a success with a count, a failure whose
    message is not the one for a timeout, or an exception that is no
    [httpx.RequestError]. *)
Lemma try_endpoints_results (self : ProviderAdapter) (api_key : string)
    (endpoints : list string) (net : network) (message : string) :
  match fst (try_endpoints self api_key endpoints net) with
  | inl e => is_RequestError e = false
  | inr v => (exists count, v = ok count) \/
             (exists m, v = failed m /\ m <> "Request timed out. " +:+ message)
  end.
Proof.
  revert net. induction endpoints as [|endpoint rest IH]; intros net.
  - cbn. right. eexists. split; [done|]. by intros [= Heq].
  - cbn [try_endpoints]. unfold client_get.
    match goal with |- context [server net (sent net) ?r] =>
      destruct (server net (sent net) r) as [e|response] end.
    + destruct (is_RequestError e) eqn:He; [apply IH|]. cbn. exact He.
    + destruct (bool_decide (status_code response = 200%Z)).
      * destruct (model_count response) as [e|count] eqn:Hc.
        -- pose proof (model_count_error _ _ Hc) as Hne.
           rewrite Hne. cbn. exact Hne.
        -- cbn. left. by eexists.
      * destruct (bool_decide (status_code response = 401%Z)).
        { cbn. right. eexists. split; [done|]. by intros [= Heq]. }
        destruct (bool_decide (status_code response = 404%Z)); [apply IH|].
        cbn. right. eexists. split; [done|]. by intros [= Heq].
Qed.

(** The loop stops at the first answer that is not passed over. *)
Lemma try_endpoints_search (self : ProviderAdapter) (api_key : string)
    (endpoints : list string) (net : network) :
  let rs := (fun url => (url, get_headers self api_key)) <$> endpoints in
  let out := try_endpoints self api_key endpoints net in
  ((forall i a, answer net rs i = Some a -> passed_over a = true) /\
   fst out = inr no_endpoint_found /\ sent (snd out) = sent net ++ rs) \/
  (exists i a,
     answer net rs i = Some a /\ passed_over a = false /\
     (forall j b, j < i -> answer net rs j = Some b -> passed_over b = true) /\
     sent (snd out) = sent net ++ take (S i) rs /\
     fst out = fst (try_endpoints self api_key [""] (always a))).
Proof.
  cbn zeta. revert net. induction endpoints as [|endpoint rest IH]; intros net.
  - left. cbn. split; [|by rewrite app_nil_r]. intros i a. by destruct i.
  - set (r := (endpoint, get_headers self api_key)).
    set (net1 := {| sent := sent net ++ [r]; server := server net |}).
    cbn [fmap list_fmap]. fold r.
    destruct (passed_over (server net (sent net) r)) eqn:Hp.
    + assert (try_endpoints self api_key (endpoint :: rest) net =
              try_endpoints self api_key rest net1) as ->.
      { cbn [try_endpoints]. unfold client_get. fold r. fold net1.
        destruct (server net (sent net) r) as [e|response]; cbn [passed_over] in Hp.
        - by rewrite Hp.
        - apply bool_decide_eq_true in Hp.
          rewrite (bool_decide_eq_false_2 (_ = 200%Z)) by (rewrite Hp; done).
          rewrite (bool_decide_eq_false_2 (_ = 401%Z)) by (rewrite Hp; done).
          by rewrite (bool_decide_eq_true_2 (_ = 404%Z)). }
      destruct (IH net1) as [(Hall & Hout & Hsent)|(i & a & Ha & Hpa & Hbefore & Hsent & Hout)].
      * left. split; [|split; [done|]].
        -- intros [|i] a; [rewrite answer_0; by intros [= <-]|].
           rewrite answer_S. apply Hall.
        -- rewrite Hsent. cbn. by rewrite <- app_assoc.
      * right. exists (S i), a. rewrite answer_S. split; [done|]. split; [done|].
        split; [|split; [|done]].
        -- intros [|j] b Hj; [rewrite answer_0; by intros [= <-]|].
           rewrite answer_S. apply Hbefore. lia.
        -- rewrite Hsent. cbn. by rewrite <- app_assoc.
    + right. exists 0, (server net (sent net) r). rewrite answer_0.
      split; [done|]. split; [done|]. split; [intros j b Hj; lia|]. split.
      * cbn [try_endpoints]. unfold client_get. fold r.
        destruct (server net (sent net) r) as [e|response]; cbn [passed_over] in Hp.
        -- rewrite Hp. done.
        -- destruct (bool_decide (status_code response = 200%Z)).
           ++ destruct (model_count response) as [e|count] eqn:Hc; [|done].
              by rewrite (model_count_error _ _ Hc).
           ++ destruct (bool_decide (status_code response = 401%Z)); [done|].
              by rewrite Hp.
      * by apply try_endpoints_settled.
Qed.




End ProvidersProofs.

(** ** The request handlers *)

Module AppProofs.
Import Py App.

#[local] Ltac py_unfold :=
  unfold mbind, M_bind, bind, mret, M_ret, ret, raise, gets, modify,
    try_except, try_finally_return in *.

Section Handlers.
Context `{!Storage.Fernet} `{!Storage.Codec}.

(** *** The storage as the handlers use it *)

Lemma get_key_pure (storage : Storage.SecretStorage) (provider_id : string)
    (s : Storage.state) :
  exists v, Storage.get_key storage provider_id s = (Ret v, s).
Proof.
  destruct storage as [k|f]; cbn [Storage.get_key].
  - eexists. apply StorageProofs.keyring_get_key_eq.
  - apply StorageProofs.get_key_returns.
Qed.

Lemma has_key_pure (storage : Storage.SecretStorage) (provider_id : string)
    (s : Storage.state) :
  exists b, Storage.has_key storage provider_id s = (Ret b, s).
Proof.
  destruct storage as [k|f]; cbn [Storage.has_key].
  - eexists. apply StorageProofs.keyring_has_key_eq.
  - by eexists.
Qed.

Lemma store_then_get (storage : Storage.SecretStorage) (provider_id key : string)
    (md : option (gmap string string)) (s s' : Storage.state) :
  Storage.store_key storage provider_id key md s = (Ret true, s') ->
  Storage.get_key storage provider_id s' = (Ret (Storage.VStr key), s').
Proof.
  destruct storage as [k|f]; cbn [Storage.store_key Storage.get_key].
  - by intros [? _]%StorageProofs.keyring_store_then_get.
  - by intros [? _]%StorageProofs.file_store_then_get.
Qed.

Lemma store_then_has (storage : Storage.SecretStorage) (provider_id key : string)
    (md : option (gmap string string)) (s s' : Storage.state) :
  Storage.store_key storage provider_id key md s = (Ret true, s') ->
  Storage.has_key storage provider_id s' = (Ret true, s').
Proof.
  destruct storage as [k|f]; cbn [Storage.store_key Storage.has_key].
  - intros [Hg _]%StorageProofs.keyring_store_then_get.
    unfold Storage.KeyringStorage.has_key. py_unfold. by rewrite Hg.
  - intros (_ & _ & Hf)%StorageProofs.file_store_key_true.
    apply StorageProofs.has_key_true. left. by eexists.
Qed.

Lemma in_storage_pure {A} (m : M Storage.state A) (a : A) (st : state) :
  m (secrets st) = (Ret a, secrets st) -> in_storage m st = (Ret a, st).
Proof. intros Hm. unfold in_storage. rewrite Hm. by destruct st. Qed.

(** *** Listing *)

Lemma provider_statuses_eq (storage : Storage.SecretStorage)
    (providers : list (string * Providers.ProviderAdapter)) (st : state) :
  exists l,
    provider_statuses storage providers st = (Ret l, st) /\
    id <$> l = providers.*1 /\
    Forall (fun s => Storage.has_key storage (id s) (secrets st) =
                       (Ret (has_key s), secrets st)) l.
Proof.
  induction providers as [|[provider_id adapter] rest (l & IH & Hids & Hflags)].
  - exists []. by repeat split.
  - destruct (has_key_pure storage provider_id (secrets st)) as [b Hb].
    eexists. split; [|split].
    + cbn [provider_statuses]. py_unfold.
      rewrite (in_storage_pure _ b st Hb), IH. reflexivity.
    + cbn. by rewrite Hids.
    + by constructor.
Qed.

(** X16.  [GET /secrets/providers] never fails and changes nothing.  It
    lists the providers of the registry, in the order of the registry,
    and the flag of each is what [has_key] of the back end says for it. *)
Theorem list_providers_reports_has_key (storage : Storage.SecretStorage)
    (providers : list (string * Providers.ProviderAdapter)) (st : state) :
  exists l,
    list_providers storage providers st = (Ret (Reply l), st) /\
    id <$> l = providers.*1 /\
    Forall (fun s => Storage.has_key storage (id s) (secrets st) =
                       (Ret (has_key s), secrets st)) l.
Proof.
  destruct (provider_statuses_eq storage providers st) as (l & Hl & Hids & Hflags).
  exists l. split; [|done]. unfold list_providers. py_unfold. by rewrite Hl.
Qed.

(** *** The environment of the Node proxy *)

Lemma registry_ids (p : string) :
  p ∈ Providers.provider_registry.*1 <->
  p = "openrouter" \/ p = "openai" \/ p = "together" \/ p = "groq" \/ p = "custom".
Proof. cbn. rewrite !elem_of_cons, elem_of_nil. tauto. Qed.

#[local] Ltac decide_ids :=
  repeat first [ rewrite (bool_decide_eq_true_2 (_ = _)) by done
               | rewrite (bool_decide_eq_false_2 (_ = _)) by done ].

#[local] Ltac all_strings :=
  repeat (apply map_Forall_insert_2; [by eexists|]);
  apply map_Forall_empty.

#[local] Ltac find_port :=
  rewrite ?lookup_insert_ne by done; apply lookup_singleton_eq.

(** For a provider of the registry the environment is composed, unless
    the provider is ["custom"] and no URL is given: the key goes to the
    variable of the provider, next to the base URL, and everything else
    in it is a string. *)
Lemma compose_env_registry (cfg : ProxyConfig) (p : string) (v : Storage.value) :
  p ∈ Providers.provider_registry.*1 ->
  (p = "custom" /\ given (custom_url cfg) = false /\
   compose_env cfg p v =
     HTTPException 400 (Text "custom_url is required for custom provider")) \/
  exists url rest,
    compose_env cfg p v =
      Reply (<[key_variable p := v]>
               (<["ANTHROPIC_PROXY_BASE_URL" := Storage.VStr url]> rest)) /\
    map_Forall (fun _ x => is_Some (unstr x)) rest /\
    rest !! "PORT" = Some (Storage.VStr (pretty (port cfg))).
Proof.
  intros Hin%registry_ids. unfold compose_env, key_variable.
  destruct Hin as [-> | [-> | [-> | [-> | ->]]]]; decide_ids.
  5: destruct (given (custom_url cfg)) eqn:Hurl; [|by left].
  all: right; cbn [negb]; eexists _, _; (split; [reflexivity|]);
    destruct (given (reasoning_model cfg)), (given (execution_model cfg)), (debug cfg);
    (split; [all_strings|find_port]).
Qed.

Lemma as_strings_insert (k : string) (key : string) (env : gmap string Storage.value) :
  map_Forall (fun _ x => is_Some (unstr x)) env ->
  as_strings (<[k := Storage.VStr key]> env) =
    Some (<[k := key]> (omap unstr env)).
Proof.
  intros Hall. unfold as_strings.
  rewrite bool_decide_eq_true_2 by (apply map_Forall_insert_2; [by eexists|done]).
  f_equal. apply map_eq. intros i. rewrite lookup_omap.
  destruct (decide (i = k)) as [->|Hne].
  - by rewrite !lookup_insert_eq.
  - by rewrite !lookup_insert_ne, lookup_omap by done.
Qed.

Lemma key_variable_not_port (p : string) :
  key_variable p <> "PORT" /\ key_variable p <> "ANTHROPIC_PROXY_BASE_URL".
Proof. unfold key_variable. by repeat destruct (bool_decide _). Qed.

(** X17.  A stored key reaches the proxy.  When a [PUT] has stored a
    non-empty key for a provider and a later [POST /proxy/start] for
    that provider, with no proxy running, replies, then the reply names
    the requested port and the child that was spawned, and that child
    finds the key in the variable of the provider and the port in
    [PORT]; the storage is as the [PUT] left it. *)
Theorem stored_key_reaches_proxy (request : StoreKeyRequest) (cfg : ProxyConfig)
    (storage : Storage.SecretStorage) (st0 st1 st2 : state)
    (message : string) (status : ProxyStatus) :
  api_key request <> "" ->
  store_provider_key (provider cfg) request storage Providers.provider_registry st0 =
    (Ret (Reply message), st1) ->
  Proxy.is_running (proxy st1) = false ->
  proxy_start cfg storage Providers.provider_registry st1 = (Ret (Reply status), st2) ->
  let h := Proxy.next_pid (Proxy.os (proxy st1)) in
  status = {| running := true; status_port := Some (port cfg); status_pid := Some h |} /\
  secrets st2 = secrets st1 /\
  exists child,
    Proxy.procs (Proxy.os (proxy st2)) !! h = Some child /\
    Proxy.p_env child !! key_variable (provider cfg) = Some (api_key request) /\
    Proxy.p_env child !! "PORT" = Some (pretty (port cfg)).
Proof.
  intros Hkey Hput Hidle Hstart h.
  unfold store_provider_key in Hput.
  destruct (bool_decide (provider cfg ∈ Providers.provider_registry.*1)) eqn:Hin;
    [|discriminate]. cbn [negb] in Hput.
  apply bool_decide_eq_true in Hin.
  assert (Storage.get_key storage (provider cfg) (secrets st1) =
            (Ret (Storage.VStr (api_key request)), secrets st1)) as Hget.
  { revert Hput. py_unfold. unfold in_storage.
    destruct (Storage.store_key _ _ _ _ _) as [[[]|e] s1] eqn:Hs; [|discriminate..].
    intros [= _ <-]. by apply store_then_get in Hs. }
  clear Hput. revert Hstart. unfold proxy_start. cbn zeta.
  rewrite bool_decide_eq_true_2 by done. cbn [negb]. py_unfold.
  rewrite (in_storage_pure _ _ st1 Hget). cbn [truthy].
  rewrite bool_decide_eq_false_2 by done. cbn [negb].
  destruct (compose_env_registry cfg (provider cfg) (Storage.VStr (api_key request)) Hin)
    as [(_ & _ & ->)|(url & rest & -> & Hall & Hport)]; [discriminate|].
  unfold start_proxy, controller_start.
  rewrite as_strings_insert by (apply map_Forall_insert_2; [by eexists|done]).
  destruct (Proxy.start _ (port cfg) (proxy st1)) as [[info|e] c] eqn:Hrun;
    [|discriminate].
  destruct (ProxyProofs.start_success_shape _ _ _ _ _ Hidle Hrun)
    as (sc & tl & n & child & _ & _ & -> & _ & Hprocs & _ & Henv & _).
  intros [= <- <-]. split; [done|]. split; [done|].
  exists child. cbn [proxy]. rewrite Hprocs, lookup_insert_eq. split; [done|].
  destruct (key_variable_not_port (provider cfg)) as [Hne1 Hne2].
  rewrite !Henv. rewrite lookup_insert_eq. split; [done|].
  rewrite lookup_insert_ne, lookup_omap, lookup_insert_ne, Hport by done. done.
Qed.

Lemma put_stores (request : StoreKeyRequest) (provider_id : string)
    (storage : Storage.SecretStorage)
    (providers : list (string * Providers.ProviderAdapter))
    (st0 st1 : state) (message : string) :
  store_provider_key provider_id request storage providers st0 =
    (Ret (Reply message), st1) ->
  provider_id ∈ providers.*1 /\ proxy st1 = proxy st0 /\
  Storage.store_key storage provider_id (api_key request) (metadata request)
    (secrets st0) = (Ret true, secrets st1).
Proof.
  unfold store_provider_key.
  destruct (bool_decide (provider_id ∈ providers.*1)) eqn:Hin; [|discriminate].
  apply bool_decide_eq_true in Hin. cbn [negb]. py_unfold. unfold in_storage.
  destruct (Storage.store_key _ _ _ _ _) as [[[]|e] s1] eqn:Hs; [|discriminate..].
  by intros [= _ <-].
Qed.

Lemma start_proxy_not_400 (env : gmap string Storage.value) (cfg : ProxyConfig)
    (st st' : state) (d : detail) :
  start_proxy env cfg st <> (Ret (HTTPException 400 d), st').
Proof.
  unfold start_proxy. destruct (controller_start env (port cfg) (proxy st)) as [[e|[i|]] c];
    discriminate.
Qed.

(** X18.  The requests that [POST /proxy/start] turns down.  With the
    registry of the daemon it answers 400 exactly when the provider is
    not in the registry, or the back end has no key for it, an empty key
    included, or the provider is ["custom"] and no URL is given; the
    branch for an unsupported provider is never taken.  A request that
    is turned down changes nothing: no child is spawned and the storage
    is untouched. *)
Theorem proxy_start_bad_request (cfg : ProxyConfig) (storage : Storage.SecretStorage)
    (st : state) :
  let turned_down :=
    provider cfg ∉ Providers.provider_registry.*1 \/
    (exists v, Storage.get_key storage (provider cfg) (secrets st) = (Ret v, secrets st) /\
               truthy v = false) \/
    (provider cfg = "custom" /\ given (custom_url cfg) = false) in
  (turned_down ->
   exists d, proxy_start cfg storage Providers.provider_registry st =
               (Ret (HTTPException 400 d), st)) /\
  (forall d st',
     proxy_start cfg storage Providers.provider_registry st =
       (Ret (HTTPException 400 d), st') ->
     st' = st /\ turned_down /\
     d <> Text ("Unsupported provider '" +:+ provider cfg +:+ "'")).
Proof.
  cbn zeta. unfold proxy_start. py_unfold.
  destruct (bool_decide (provider cfg ∈ Providers.provider_registry.*1)) eqn:Hin.
  - apply bool_decide_eq_true in Hin. cbn [negb].
    destruct (get_key_pure storage (provider cfg) (secrets st)) as [v Hget].
    rewrite (in_storage_pure _ _ st Hget).
    destruct (truthy v) eqn:Htruthy; cbn [negb].
    + destruct (compose_env_registry cfg (provider cfg) v Hin)
        as [(Hp & Hurl & Hc)|(url & rest & Hc & _)]; rewrite Hc.
      * split; [by eexists|]. intros d st' [= <- <-]. split; [done|].
        split; [by right; right|]. discriminate.
      * split.
        -- intros [Hout|[(v' & Hget' & Hv')|[Hp Hurl]]]; [done| |].
           ++ congruence.
           ++ exfalso. unfold compose_env in Hc. rewrite Hp in Hc.
              rewrite bool_decide_eq_true_2 in Hc by done.
              rewrite Hurl in Hc. discriminate Hc.
        -- intros d st' Hs. by apply start_proxy_not_400 in Hs.
    + split; [by eexists|]. intros d st' [= <- <-]. split; [done|].
      split; [right; left; by exists v|].
      intros Heq. vm_compute in Heq. discriminate Heq.
  - apply bool_decide_eq_false in Hin. cbn [negb].
    split; [by eexists|]. intros d st' [= <- <-]. split; [done|]. split; [by left|].
    intros Heq. vm_compute in Heq. discriminate Heq.
Qed.


(** X20.  [POST /proxy/stop] always replies and leaves the storage
    alone.  Whatever it replies, a [GET /proxy/status] right after says
    that no proxy is running, also when the child could not be stopped
    and the reply was false; and a second [POST /proxy/stop] replies
    true and changes nothing. *)
Theorem proxy_stop_then_status (st : state) :
  exists (ok : bool) (st' : state),
    proxy_stop st = (Ret (Reply ok), st') /\
    secrets st' = secrets st /\
    proxy_status st' =
      (Ret (Reply {| running := false; status_port := None; status_pid := None |}), st') /\
    proxy_stop st' = (Ret (Reply true), st').
Proof.
  assert (exists ok c, Proxy.stop (proxy st) = (Ret ok, c) /\
                       Proxy._proc (Proxy.self c) = None) as (ok & c & Hstop & Hproc).
  { destruct (Proxy._proc (Proxy.self (proxy st))) as [h|] eqn:Hp.
    - rewrite (ProxyProofs.stop_held _ h Hp). by eexists _, _.
    - rewrite (ProxyProofs.stop_idle _ Hp). by eexists _, _. }
  exists ok, {| secrets := secrets st; proxy := c |}.
  unfold proxy_stop, proxy_status, in_proxy. py_unfold. rewrite Hstop.
  split; [done|]. split; [done|]. cbn [proxy secrets]. split.
  - unfold Proxy.is_running. by rewrite Hproc.
  - by rewrite (ProxyProofs.stop_idle c Hproc).
Qed.

(** X21.  An empty key is stored and cannot be used.  When a [PUT] with
    the empty string as key has succeeded, the back end reports a key
    for the provider, and [POST /proxy/start] for it is turned down
    with "No API key stored", nothing spawned. *)
Theorem empty_key_is_stored_but_unusable (request : StoreKeyRequest) (cfg : ProxyConfig)
    (storage : Storage.SecretStorage) (st0 st1 : state) (message : string) :
  api_key request = "" ->
  store_provider_key (provider cfg) request storage Providers.provider_registry st0 =
    (Ret (Reply message), st1) ->
  Storage.has_key storage (provider cfg) (secrets st1) = (Ret true, secrets st1) /\
  proxy_start cfg storage Providers.provider_registry st1 =
    (Ret (HTTPException 400
            (Text ("No API key stored for provider '" +:+ provider cfg +:+ "'"))), st1).
Proof.
  intros Hempty (Hin & _ & Hs)%put_stores. split; [by apply store_then_has in Hs|].
  apply store_then_get in Hs. rewrite Hempty in Hs.
  unfold proxy_start. py_unfold. rewrite bool_decide_eq_true_2 by done. cbn [negb].
  by rewrite (in_storage_pure _ _ st1 Hs).
Qed.


End Handlers.

(** *** The handlers on a concrete machine *)

Section Concrete.
Import Mini MiniProofs.

(** The daemon after a first run with the encrypted-file store, no proxy
    started yet, and a request for the ["openai"] proxy on port 3000. *)
Definition daemon : state :=
  {| secrets := StorageProofs.installed;
     proxy := Proxy.boot 1000 ∅ 4000 [Proxy.obedient] |}.

Definition storage : Storage.SecretStorage := Storage.EncryptedFile StorageProofs.efs.

Definition openai_3000 : ProxyConfig :=
  {| provider := "openai"; custom_url := None; reasoning_model := None;
     execution_model := None; port := 3000; debug := false |}.

Definition put (key : string) : state :=
  snd (store_provider_key "openai" {| api_key := key; metadata := None |} storage
         Providers.provider_registry daemon).

Lemma stored_key_reaches_proxy_witness :
  let st2 := snd (proxy_start openai_3000 storage Providers.provider_registry
                    (put "sk-1")) in
  exists child,
    Proxy.procs (Proxy.os (proxy st2)) !! 4000%Z = Some child /\
    Proxy.p_env child !! "OPENAI_API_KEY" = Some "sk-1" /\
    Proxy.p_env child !! "PORT" = Some "3000".
Proof.
  intros st2.
  apply (stored_key_reaches_proxy {| api_key := "sk-1"; metadata := None |} openai_3000
           storage daemon (put "sk-1") st2 "API key stored for openai"
           {| running := true; status_port := Some 3000%Z; status_pid := Some 4000%Z |}).
  - discriminate.
  - vm_compute. reflexivity.
  - vm_compute. reflexivity.
  - vm_compute. reflexivity.
Defined.

Lemma proxy_start_bad_request_witness :
  let cfg := {| provider := "nobody"; custom_url := None; reasoning_model := None;
                execution_model := None; port := 3000; debug := false |} in
  exists d, proxy_start cfg storage Providers.provider_registry daemon =
              (Ret (HTTPException 400 d), daemon).
Proof.
  intros cfg. apply (proj1 (proxy_start_bad_request cfg storage daemon)).
  left. intros Hin%registry_ids. cbn in Hin.
  destruct Hin as [Hin|[Hin|[Hin|[Hin|Hin]]]]; discriminate Hin.
Defined.


Lemma empty_key_is_stored_but_unusable_witness :
  Storage.has_key storage "openai" (secrets (put "")) = (Ret true, secrets (put "")) /\
  proxy_start openai_3000 storage Providers.provider_registry (put "") =
    (Ret (HTTPException 400 (Text "No API key stored for provider 'openai'")), put "").
Proof.
  apply (empty_key_is_stored_but_unusable {| api_key := ""; metadata := None |}
           openai_3000 storage daemon (put "") "API key stored for openai").
  - reflexivity.
  - vm_compute. reflexivity.
Defined.


End Concrete.

End AppProofs.
